(** * Extended Action Switch: press classifier and action-tree interpreter

    A shallow embedding of [src/extended-action-switch/src/plugin.ts]: the
    [ExtendedActionSwitch] singleton action (fields [pressTimer],
    [isLongPress], [initialState]; handlers [onKeyDown], [onKeyUp],
    [onSendToPlugin]; helpers [browseFile], [executeHold], [executeToggle],
    [runActionTree]) together with the two JavaScript built-ins whose
    behaviour the handlers depend on ([parseInt] with radix 10 and
    [String.prototype.trim]).

    Strings are sequences of code units restricted to the 8-bit range
    (Rocq's [string]); toggle states are [Z]; the number [parseInt] gives
    is an [IntegralNumber], rounded as a double is. *)

From Stdlib Require Import ZArith Ascii String List Bool Lia.
From Stdlib Require Import Decimal DecimalFacts DecimalNat DecimalString.
From stdpp Require Import base option list strings gmap.

Local Open Scope string_scope.
Local Open Scope list_scope.
Local Open Scope Z_scope.

(** ** Data model (the type declarations at the end of plugin.ts) *)

(** [Command.type]: the five string literals of the union type. *)
Inductive CommandType : Type := hotkey | url | text | delay | run.

Record Command : Type := { type : CommandType; value : string }.

Definition ActionTree : Type := list Command.

(** [SwitchSettings]: the three optional trees ([None] is [undefined]). *)
Record SwitchSettings : Type :=
  { tree0 : option ActionTree;
    tree1 : option ActionTree;
    treeHold : option ActionTree }.

(** The identity of the control an event belongs to ([ev.action]). *)
Definition ControlId : Type := string.

(** [KeyDownEvent<SwitchSettings>] and [KeyUpEvent<SwitchSettings>] have the
    same shape: the control, [ev.payload.state] (optional) and
    [ev.payload.settings]. *)
Record KeyEvent : Type :=
  { action : ControlId;
    payload_state : option Z;
    payload_settings : SwitchSettings }.

(** What a rejected promise or a thrown exception carries. *)
Definition Error : Type := string.

(** ** JavaScript built-ins used by the handlers *)

(** White space and line terminators among the code units below 256
    (TAB, LF, VT, FF, CR, SP, NBSP). *)
Definition isStrWhiteSpaceChar (c : ascii) : bool :=
  let n := nat_of_ascii c in
  ((n =? 9) || (n =? 10) || (n =? 11) || (n =? 12) || (n =? 13)
   || (n =? 32) || (n =? 160))%nat.

Fixpoint trimStart (s : string) : string :=
  match s with
  | EmptyString => EmptyString
  | String c s' => if isStrWhiteSpaceChar c then trimStart s' else s
  end.

Fixpoint trimEnd (s : string) : string :=
  match s with
  | EmptyString => EmptyString
  | String c s' =>
      match trimEnd s' with
      | EmptyString =>
          if isStrWhiteSpaceChar c then EmptyString else String c EmptyString
      | r => String c r
      end
  end.

(** [String.prototype.trim]. *)
Definition trim (s : string) : string := trimStart (trimEnd s).

(** The value of a decimal digit, [None] for any other code unit. *)
Definition digitValue (c : ascii) : option Z :=
  let n := nat_of_ascii c in
  if ((48 <=? n) && (n <=? 57))%nat then Some (Z.of_nat (n - 48)) else None.

(** The longest prefix of decimal digits, read as a number; [acc] is [None]
    until a first digit has been seen. *)
Fixpoint parseDigits (acc : option Z) (s : string) : option Z :=
  match s with
  | EmptyString => acc
  | String c s' =>
      match digitValue c with
      | Some d => parseDigits (Some (10 * default 0 acc + d)) s'
      | None => acc
      end
  end.

(** The numbers [parseInt] can give, [NaN] apart: a double without a
    fractional part, held as the integer it equals ([Finite 0] is the
    positive zero), the negative zero, or an infinity. *)
Inductive IntegralNumber : Type :=
  | Finite (z : Z)
  | NegativeZero
  | PlusInfinity
  | MinusInfinity.

(** The double nearest to the non-negative integer [n], ties to the even
    significand of 53 bits; [None] when that is beyond the largest double. *)
Definition roundMagnitude (n : Z) : option Z :=
  let bits := Z.log2 n + 1 in
  if bits <=? 53 then Some n
  else
    let e := bits - 53 in
    let q := Z.shiftr n e in
    let r := Z.land n (Z.ones e) in
    let half := Z.shiftl 1 (e - 1) in
    let q' := if (half <? r) || ((r =? half) && Z.odd q) then q + 1 else q in
    let m := Z.shiftl q' e in
    if m <? 2 ^ 1024 then Some m else None.

(** The number value of an integer. *)
Definition toNumber (z : Z) : IntegralNumber :=
  match roundMagnitude (Z.abs z) with
  | Some m => Finite (Z.sgn z * m)
  | None => if z <? 0 then MinusInfinity else PlusInfinity
  end.

(** The last step of [parseInt]: the number for [sign] times the integer
    [m] read from the digits, which is the negative zero when the sign is
    minus and the integer 0. *)
Definition signedNumber (sign m : Z) : IntegralNumber :=
  if (sign <? 0) && (m =? 0) then NegativeZero else toNumber (sign * m).

(** [parseInt(s, 10)]: leading white space is skipped, one sign is
    accepted, the longest digit prefix is read and whatever follows it is
    ignored. [None] is [NaN] (no digit was found); otherwise the result is
    the number value of the signed integer the digits denote, rounded as
    Node rounds it. *)
Definition parseInt (s : string) : option IntegralNumber :=
  let s1 := trimStart s in
  let '(sign, s2) :=
    match s1 with
    | String c r =>
        if Ascii.eqb c "-" then (-1, r)
        else if Ascii.eqb c "+" then (1, r)
        else (1, s1)
    | EmptyString => (1, s1)
    end in
  match parseDigits None s2 with
  | Some m => Some (signedNumber sign m)
  | None => None
  end.

(** ** Effects

    Everything a handler does to the outside is recorded in a trace. *)

(** The calls into the operating system made by [simulateHotkey], [open]
    and [simulateTyping]. *)
Inductive PlatformCall : Type :=
  | SimulateHotkey (keys : string)
  | Open (target : string)
  | SimulateTyping (text : string).

(** - [Invoke c]: a call on the platform was started;
    - [Sleep ms]: [await new Promise(res => setTimeout(res, ms))];
    - [ConsoleError t err]: the [console.error] of the [catch] block, with
      [cmd.type] and the error;
    - [SetState a v]: [ev.action.setState(v)] on control [a]. *)
Inductive Effect : Type :=
  | Invoke (c : PlatformCall)
  | Sleep (ms : IntegralNumber)
  | ConsoleError (t : CommandType) (err : Error)
  | SetState (a : ControlId) (v : Z).

Inductive Outcome (A : Type) : Type :=
  | Returns (a : A)
  | Throws (e : Error).
Arguments Returns {A} a.
Arguments Throws {A} e.

(** The three constants computed at the top of [executeToggle]. *)
Definition currentState (ev : KeyEvent) : Z := default 0 (payload_state ev).

Definition nextState (ev : KeyEvent) : Z :=
  if currentState ev =? 0 then 1 else 0.

Definition treeToRun (ev : KeyEvent) : option ActionTree :=
  if currentState ev =? 0
  then tree0 (payload_settings ev)
  else tree1 (payload_settings ev).

Section Interpreter.

(** The platform is a collaborator: [platform c w] says whether call [c]
    made in world [w] rejects (with which error) and what the world is
    afterwards. *)
Variable World : Type.
Variable platform : PlatformCall -> World -> option Error * World.

(** An asynchronous function body: it runs in a world, leaves a world,
    a trace of effects, and either returns or throws. *)
Definition Async (A : Type) : Type :=
  World -> Outcome A * World * list Effect.

Definition ret {A} (a : A) : Async A := fun w => (Returns a, w, []).

Definition bind {A B} (m : Async A) (k : A -> Async B) : Async B :=
  fun w =>
    match m w with
    | (Returns a, w1, tr1) =>
        let '(r, w2, tr2) := k a w1 in (r, w2, tr1 ++ tr2)
    | (Throws e, w1, tr1) => (Throws e, w1, tr1)
    end.

(** [try { m } catch (err) { h err }]. *)
Definition try_catch {A} (m : Async A) (h : Error -> Async A) : Async A :=
  fun w =>
    match m w with
    | (Returns a, w1, tr1) => (Returns a, w1, tr1)
    | (Throws e, w1, tr1) =>
        let '(r, w2, tr2) := h e w1 in (r, w2, tr1 ++ tr2)
    end.

Definition emit (e : Effect) : Async unit := fun w => (Returns tt, w, [e]).

(** [await] of a platform call: the call is observed, then it resolves
    or rejects as the platform decides. *)
Definition invoke (c : PlatformCall) : Async unit :=
  fun w =>
    match platform c w with
    | (None, w1) => (Returns tt, w1, [Invoke c])
    | (Some e, w1) => (Throws e, w1, [Invoke c])
    end.

Notation "'await' m1 ; m2" := (bind m1 (fun _ => m2))
  (at level 10, m1 at level 100, m2 at level 200).

Definition simulateHotkey (keys : string) : Async unit :=
  invoke (SimulateHotkey keys).
Definition open (target : string) : Async unit := invoke (Open target).
Definition simulateTyping (t : string) : Async unit :=
  invoke (SimulateTyping t).

(** The [switch (cmd.type)] of [runActionTree]. *)
Definition dispatch (cmd : Command) : Async unit :=
  match type cmd with
  | hotkey => simulateHotkey (value cmd)
  | url => open (value cmd)
  | text => simulateTyping (value cmd)
  | delay =>
      match parseInt (value cmd) with
      | Some ms => emit (Sleep ms)
      | None => ret tt
      end
  | run => open (value cmd)
  end.

(** The body of the loop of [runActionTree]: the [try] block and its
    [catch]. *)
Definition attempt (cmd : Command) : Async unit :=
  try_catch (dispatch cmd)
    (fun err => emit (ConsoleError (type cmd) err)).

(** [runActionTree]: the [for ... of] loop. *)
Fixpoint runActionTree (tree : ActionTree) : Async unit :=
  match tree with
  | [] => ret tt
  | cmd :: rest => await attempt cmd; runActionTree rest
  end.

(** [executeHold]. *)
Definition executeHold (ev : KeyEvent) : Async unit :=
  match treeHold (payload_settings ev) with
  | Some (c :: t) => runActionTree (c :: t)
  | _ => ret tt
  end.

(** [executeToggle]. *)
Definition executeToggle (ev : KeyEvent) : Async unit :=
  await match treeToRun ev with
        | Some (c :: t) => runActionTree (c :: t)
        | _ => ret tt
        end;
  emit (SetState (action ev) (nextState ev)).

End Interpreter.

Arguments ret {World A} a.
Arguments bind {World A B} m k.
Arguments try_catch {World A} m h.
Arguments emit {World} e.
Arguments invoke {World} platform c.
Arguments dispatch {World} platform cmd.
Arguments attempt {World} platform cmd.
Arguments runActionTree {World} platform tree.
Arguments executeHold {World} platform ev.
Arguments executeToggle {World} platform ev.

(** ** The handler object and the timers of the runtime *)

(** The handle returned by [setTimeout]. *)
Definition Timeout : Type := nat.

(** The three private fields of the [ExtendedActionSwitch] class. There is
    one object for all controls: the class extends [SingletonAction] and is
    instantiated once, in [registerAction(new ExtendedActionSwitch())]. *)
Record ExtendedActionSwitch : Type :=
  { pressTimer : option Timeout;
    isLongPress : bool;
    initialState : Z }.

(** The field initialisers of the class. *)
Definition newExtendedActionSwitch : ExtendedActionSwitch :=
  {| pressTimer := None; isLongPress := false; initialState := 0 |}.

(** The handler object together with the part of the runtime it uses: the
    timers that were set and have neither fired nor been cleared, each with
    the event its callback closes over, and the next fresh handle. *)
Record Runtime : Type :=
  { this : ExtendedActionSwitch;
    timers : gmap Timeout KeyEvent;
    nextTimeout : Timeout }.

Definition startup : Runtime :=
  {| this := newExtendedActionSwitch; timers := ∅; nextTimeout := 0%nat |}.

(** The asynchronous calls a handler starts. The handler fields are read
    and written only before the first [await] of each handler, so the body
    of a started call never touches them; what the body does is given by
    [runCall] below.
    - [AwaitExecuteHold ev]: [await this.executeHold(ev)] in the timer
      callback;
    - [AwaitExecuteToggle ev]: [await this.executeToggle(ev)] in [onKeyUp];
    - [AwaitSetState a v]: [await ev.action.setState(this.initialState)]
      in [onKeyUp]. *)
Inductive Call : Type :=
  | AwaitExecuteHold (ev : KeyEvent)
  | AwaitExecuteToggle (ev : KeyEvent)
  | AwaitSetState (a : ControlId) (v : Z).

Definition runCall {World} (platform : PlatformCall -> World -> option Error * World)
    (c : Call) : Async World unit :=
  match c with
  | AwaitExecuteHold ev => executeHold platform ev
  | AwaitExecuteToggle ev => executeToggle platform ev
  | AwaitSetState a v => emit (SetState a v)
  end.

(** [onKeyDown]: the flag is cleared, the state is captured, a timer is set
    and its handle stored. Nothing is done about a handle already stored. *)
Definition onKeyDown (ev : KeyEvent) (rt : Runtime) : Runtime * list Call :=
  let t := nextTimeout rt in
  ({| this := {| pressTimer := Some t;
                 isLongPress := false;
                 initialState := default 0 (payload_state ev) |};
      timers := <[t := ev]> (timers rt);
      nextTimeout := S t |},
   []).

(** The callback given to [setTimeout] in [onKeyDown], run when timer [t]
    fires; [None] when [t] is not pending (it cannot fire). *)
Definition timerCallback (t : Timeout) (rt : Runtime) : option (Runtime * list Call) :=
  match timers rt !! t with
  | None => None
  | Some ev =>
      Some ({| this := {| pressTimer := pressTimer (this rt);
                          isLongPress := true;
                          initialState := initialState (this rt) |};
               timers := delete t (timers rt);
               nextTimeout := nextTimeout rt |},
            [AwaitExecuteHold ev])
  end.

(** [clearTimeout]. *)
Definition clearTimeout (t : Timeout) (pending : gmap Timeout KeyEvent) :
    gmap Timeout KeyEvent :=
  delete t pending.

(** [onKeyUp]. *)
Definition onKeyUp (ev : KeyEvent) (rt : Runtime) : Runtime * list Call :=
  let rt1 :=
    match pressTimer (this rt) with
    | Some t =>
        {| this := {| pressTimer := None;
                      isLongPress := isLongPress (this rt);
                      initialState := initialState (this rt) |};
           timers := clearTimeout t (timers rt);
           nextTimeout := nextTimeout rt |}
    | None => rt
    end in
  if isLongPress (this rt1)
  then (rt1, [AwaitSetState (action ev) (initialState (this rt1))])
  else (rt1, [AwaitExecuteToggle ev]).

(** What the host and the runtime can deliver to the handler object. *)
Inductive Input : Type :=
  | KeyDown (ev : KeyEvent)
  | KeyUp (ev : KeyEvent)
  | TimerFires (t : Timeout).

Definition step (i : Input) (rt : Runtime) : option (Runtime * list Call) :=
  match i with
  | KeyDown ev => Some (onKeyDown ev rt)
  | KeyUp ev => Some (onKeyUp ev rt)
  | TimerFires t => timerCallback t rt
  end.

(** A schedule of inputs, each handled to its first [await] before the
    next one is taken; the calls started are collected in order. [None]
    when the schedule asks a timer to fire that is not pending. *)
Fixpoint deliver (inputs : list Input) (rt : Runtime) : option (Runtime * list Call) :=
  match inputs with
  | [] => Some (rt, [])
  | i :: rest =>
      match step i rt with
      | None => None
      | Some (rt1, cs1) =>
          match deliver rest rt1 with
          | None => None
          | Some (rt2, cs2) => Some (rt2, cs1 ++ cs2)
          end
      end
  end.

(** Press-downs and releases alternate ([pressed] says whether a key is
    down); timers may be asked to fire anywhere. *)
Fixpoint alternating (pressed : bool) (inputs : list Input) : bool :=
  match inputs with
  | [] => true
  | KeyDown _ :: rest => negb pressed && alternating true rest
  | KeyUp _ :: rest => pressed && alternating false rest
  | TimerFires _ :: rest => alternating pressed rest
  end.

(** What alternating presses maintain: no timer is pending, or a key is
    down and the one pending timer is the one whose handle is stored. *)
Definition timersWithin (pressed : bool) (rt : Runtime) : Prop :=
  timers rt = ∅ \/
  (pressed = true /\
   exists t ev, pressTimer (this rt) = Some t /\ timers rt = {[t := ev]}).

(** Every pending timer has a handle that was already handed out, so the
    next handle is fresh. *)
Definition handlesFresh (rt : Runtime) : Prop :=
  forall t ev, timers rt !! t = Some ev -> (t < nextTimeout rt)%nat.

(** The calls that run a tree ([executeHold] or [executeToggle]). *)
Definition runsTree (c : Call) : bool :=
  match c with
  | AwaitExecuteHold _ | AwaitExecuteToggle _ => true
  | AwaitSetState _ _ => false
  end.

(** The timers pending whose callback belongs to control [a]. *)
Definition pendingFor (a : ControlId) (rt : Runtime) : list (Timeout * KeyEvent) :=
  List.filter (fun kv => String.eqb (action (snd kv)) a) (map_to_list (timers rt)).

(** ** The host's view of the toggle states *)

(** What [setState] writes, per control. *)
Definition hostApply (e : Effect) (host : gmap ControlId Z) : gmap ControlId Z :=
  match e with
  | SetState a v => <[a := v]> host
  | _ => host
  end.

Definition hostAfter (tr : list Effect) (host : gmap ControlId Z) : gmap ControlId Z :=
  fold_left (fun h e => hostApply e h) tr host.

(** ** Projections of a trace *)

Definition isSetState (e : Effect) : bool :=
  match e with SetState _ _ => true | _ => false end.

Definition isConsoleError (e : Effect) : bool :=
  match e with ConsoleError _ _ => true | _ => false end.

(** What the platform side sees: everything but the log entries. *)
Definition observed (tr : list Effect) : list Effect :=
  List.filter (fun e => negb (isConsoleError e)) tr.

(** The log entries. *)
Definition logged (tr : list Effect) : list Effect :=
  List.filter isConsoleError tr.

(** The call or the wait a command asks for, by its [type] and [value]. *)
Definition request (cmd : Command) : list Effect :=
  match type cmd with
  | hotkey => [Invoke (SimulateHotkey (value cmd))]
  | url => [Invoke (Open (value cmd))]
  | text => [Invoke (SimulateTyping (value cmd))]
  | delay =>
      match parseInt (value cmd) with
      | Some ms => [Sleep ms]
      | None => []
      end
  | run => [Invoke (Open (value cmd))]
  end.

(** The log entries a run of [tree] from world [w] must contain: one per
    platform call that rejects, in order. *)
Fixpoint failures {World} (platform : PlatformCall -> World -> option Error * World)
    (tree : ActionTree) (w : World) : list Effect :=
  match tree with
  | [] => []
  | cmd :: rest =>
      match request cmd with
      | [Invoke c] =>
          match platform c w with
          | (Some e, w1) => ConsoleError (type cmd) e :: failures platform rest w1
          | (None, w1) => failures platform rest w1
          end
      | _ => failures platform rest w
      end
  end.

(** ** Fixtures for the concrete examples *)

(** A platform on which every call resolves. *)
Definition obliging (c : PlatformCall) (w : unit) : option Error * unit := (None, w).

(** A platform on which every call rejects. *)
Definition hostile (c : PlatformCall) (w : unit) : option Error * unit :=
  (Some "rejected", w).

Definition typeZero : Command := {| type := text; value := "zero" |}.
Definition typeOne : Command := {| type := text; value := "one" |}.
Definition openHeld : Command := {| type := url; value := "https://example.org" |}.

Definition sampleSettings : SwitchSettings :=
  {| tree0 := Some [typeZero]; tree1 := Some [typeOne]; treeHold := Some [openHeld] |}.

(** A key event of control "key" reporting state [s]. *)
Definition sampleEvent (s : Z) : KeyEvent :=
  {| action := "key"; payload_state := Some s; payload_settings := sampleSettings |}.

(** A key event of a second control, "other", reporting state [s]. *)
Definition otherEvent (s : Z) : KeyEvent :=
  {| action := "other"; payload_state := Some s; payload_settings := sampleSettings |}.

(** ** The property inspector *)

(** A value of type [any] in the inspector's message. *)
Inductive JsValue : Type :=
  | JsUndefined
  | JsNumber (n : Z)
  | JsString (s : string).

(** [ev] of [onSendToPlugin]: the control and the three payload fields the
    handler reads. *)
Record SendToPluginEvent : Type :=
  { sender : ControlId;
    payload_event : JsValue;
    payload_index : JsValue;
    payload_tree : JsValue }.

(** What [exec] hands to its callback. *)
Record ExecResult : Type := { err : option Error; stdout : string }.

(** The object given to [sendToPropertyInspector]. *)
Record InspectorReply : Type :=
  { event : string;
    filePath : string;
    index : JsValue;
    tree : JsValue }.

Fixpoint allWhiteSpace (s : string) : bool :=
  match s with
  | EmptyString => true
  | String c s' => isStrWhiteSpaceChar c && allWhiteSpace s'
  end.

(** [browseFile], given what the dialog command produced. *)
Definition browseFile (dialog : ExecResult) : string :=
  match err dialog with
  | Some _ => ""
  | None => trim (stdout dialog)
  end.

(** [onSendToPlugin]: the reply sent, and to which control's inspector;
    [None] when nothing is sent. *)
Definition onSendToPlugin (ev : SendToPluginEvent) (dialog : ExecResult) :
    option (ControlId * InspectorReply) :=
  match payload_event ev with
  | JsString "browseFile" =>
      let filePath := browseFile dialog in
      Some (sender ev,
            {| event := "filePicked";
               filePath := filePath;
               index := payload_index ev;
               tree := payload_tree ev |})
  | _ => None
  end.

(** ** The commands handed to [exec]

    [simulateHotkey], [simulateTyping] and [open] each build one command
    line, by the platform ([isWin] is [process.platform === "win32"]), and
    hand it to [exec] of [child_process]. *)

(** [s.includes(c)] for a pattern of one code unit. *)
Fixpoint includes (c : ascii) (s : string) : bool :=
  match s with
  | EmptyString => false
  | String d s' => Ascii.eqb d c || includes c s'
  end.

(** [s.replace(c, by)] with a string pattern of one code unit: only the
    first occurrence is replaced. *)
Fixpoint replaceFirst (c : ascii) (by_ : string) (s : string) : string :=
  match s with
  | EmptyString => EmptyString
  | String d s' =>
      if Ascii.eqb d c then (by_ ++ s')%string
      else String d (replaceFirst c by_ s')
  end.

(** [s.replace(/.../g, by)] for a regular expression that matches the
    single code units satisfying [p]: every occurrence is replaced. *)
Fixpoint replaceGlobal (p : ascii -> bool) (by_ : string) (s : string) : string :=
  match s with
  | EmptyString => EmptyString
  | String d s' =>
      if p d then (by_ ++ replaceGlobal p by_ s')%string
      else String d (replaceGlobal p by_ s')
  end.

(** [toLowerCase] on one code unit below 256: the letters A to Z and the
    capital letters of Latin-1 (192 to 222, the multiplication sign 215
    left out) move up by 32. *)
Definition toLowerCaseUnit (c : ascii) : ascii :=
  let n := nat_of_ascii c in
  if (((65 <=? n) && (n <=? 90))
      || ((192 <=? n) && (n <=? 222) && negb (n =? 215)))%nat
  then ascii_of_nat (n + 32)
  else c.

Fixpoint toLowerCase (s : string) : string :=
  match s with
  | EmptyString => EmptyString
  | String c s' => String (toLowerCaseUnit c) (toLowerCase s')
  end.

(** [parts.join(sep)]. *)
Fixpoint joinWith (sep : string) (parts : list string) : string :=
  match parts with
  | [] => EmptyString
  | [x] => x
  | x :: rest => (x ++ sep ++ joinWith sep rest)%string
  end.

(** The double quote and the backslash, as strings of one code unit. *)
Definition dquote : string := String "034"%char EmptyString.
Definition backslash : string := String "092"%char EmptyString.

Definition isSingleQuote (c : ascii) : bool := Ascii.eqb c "'".
Definition isDoubleQuote (c : ascii) : bool := Ascii.eqb c "034".
(** The regular expression [/{|}/]. *)
Definition isBrace (c : ascii) : bool := Ascii.eqb c "{" || Ascii.eqb c "}".

(** [`powershell -Command "${psCommand}"`]. *)
Definition powershell (psCommand : string) : string :=
  ("powershell -Command " ++ dquote ++ psCommand ++ dquote)%string.

(** [`osascript -e '${appleScript}'`]. *)
Definition osascript (appleScript : string) : string :=
  ("osascript -e '" ++ appleScript ++ "'")%string.

(** The PowerShell command of [simulateHotkey] and [simulateTyping] around
    the text given to [SendWait]. *)
Definition sendWait (keys : string) : string :=
  ("add-type -AssemblyName System.Windows.Forms; [System.Windows.Forms.SendKeys]::SendWait('"
     ++ keys ++ "')")%string.

(** The three [if (key.includes(...))] of the macOS branch of
    [simulateHotkey]: the modifiers pushed, and the key with the first
    occurrence of each marker found taken out. *)
Definition macModifiers (keys : string) : list string * string :=
  let modifiers := [] in
  let key := keys in
  let '(modifiers, key) :=
    if includes "^" key
    then (modifiers ++ ["control down"], replaceFirst "^" "" key)
    else (modifiers, key) in
  let '(modifiers, key) :=
    if includes "+" key
    then (modifiers ++ ["shift down"], replaceFirst "+" "" key)
    else (modifiers, key) in
  let '(modifiers, key) :=
    if includes "%" key
    then (modifiers ++ ["command down"], replaceFirst "%" "" key)
    else (modifiers, key) in
  (modifiers, key).

(** The text between the quotes after [keystroke] in the macOS branch of
    [simulateHotkey]: braces removed, then lower case. *)
Definition macKeystroke (keys : string) : string :=
  toLowerCase (replaceGlobal isBrace "" (snd (macModifiers keys))).

(** [modStr] of [simulateHotkey]. *)
Definition modStr (modifiers : list string) : string :=
  match modifiers with
  | [] => ""
  | _ => (" using {" ++ joinWith ", " modifiers ++ "}")%string
  end.

(** [`tell application "System Events" to keystroke "${text}"`]. *)
Definition keystroke (text : string) : string :=
  ("tell application " ++ dquote ++ "System Events" ++ dquote
     ++ " to keystroke " ++ dquote ++ text ++ dquote)%string.

(** The command [simulateHotkey] gives to [exec]. *)
Definition simulateHotkeyCommand (isWin : bool) (keys : string) : string :=
  if isWin
  then powershell (sendWait keys)
  else osascript (keystroke (macKeystroke keys)
                    ++ modStr (fst (macModifiers keys)))%string.

(** The command [simulateTyping] gives to [exec]: a single quote is
    doubled on Windows, a double quote gets a backslash on macOS. *)
Definition simulateTypingCommand (isWin : bool) (text : string) : string :=
  if isWin
  then powershell (sendWait (replaceGlobal isSingleQuote "''" text))
  else osascript (keystroke (replaceGlobal isDoubleQuote (backslash ++ dquote) text)).

(** The command [open] gives to [exec]. *)
Definition openCommand (isWin : bool) (target : string) : string :=
  if isWin
  then ("start " ++ dquote ++ dquote ++ " " ++ dquote ++ target ++ dquote)%string
  else ("open " ++ dquote ++ target ++ dquote)%string.

(** The command behind each platform call. *)
Definition execCommand (isWin : bool) (c : PlatformCall) : string :=
  match c with
  | SimulateHotkey keys => simulateHotkeyCommand isWin keys
  | Open target => openCommand isWin target
  | SimulateTyping t => simulateTypingCommand isWin t
  end.

(** What a call of [exec] comes to: it throws at once, or it calls back
    later with its [err] argument ([None] is [null]). *)
Inductive ExecOutcome : Type :=
  | ExecThrows (e : Error)
  | ExecCallsBack (err : option Error).

(** The platform made of the three helpers over a given [exec]. The
    callbacks of [simulateHotkey] and [simulateTyping] are [() => resolve()]:
    they resolve whatever [err] is. The callback of [open] resolves too,
    after [console.error("Open failed:", err)] when [err] is set; those
    messages are kept beside the world of [exec]. Only an [exec] that
    throws makes the promise reject. *)
Definition shellPlatform {W} (isWin : bool)
    (exec : string -> W -> ExecOutcome * W)
    (c : PlatformCall) (w : W * list Error) : option Error * (W * list Error) :=
  let '(w0, openFailed) := w in
  match exec (execCommand isWin c) w0 with
  | (ExecThrows e, w1) => (Some e, (w1, openFailed))
  | (ExecCallsBack err, w1) =>
      match c, err with
      | Open _, Some e => (None, (w1, openFailed ++ [e]))
      | _, _ => (None, (w1, openFailed))
      end
  end.

(** How often code unit [c] occurs in [s]. *)
Fixpoint occurrences (c : ascii) (s : string) : nat :=
  match s with
  | EmptyString => 0%nat
  | String d s' => ((if Ascii.eqb d c then 1 else 0) + occurrences c s')%nat
  end.

(** Whether some code unit of [s] satisfies [p]. *)
Fixpoint anyUnit (p : ascii -> bool) (s : string) : bool :=
  match s with
  | EmptyString => false
  | String d s' => p d || anyUnit p s'
  end.

(** Whether [c] is a decimal digit. *)
Definition isDigit (c : ascii) : bool :=
  match digitValue c with Some _ => true | None => false end.

(** How many inputs of each kind a schedule holds. *)
Definition isKeyDown (i : Input) : bool :=
  match i with KeyDown _ => true | _ => false end.
Definition isKeyUp (i : Input) : bool :=
  match i with KeyUp _ => true | _ => false end.
Definition isTimerFires (i : Input) : bool :=
  match i with TimerFires _ => true | _ => false end.

Definition isExecuteHold (c : Call) : bool :=
  match c with AwaitExecuteHold _ => true | _ => false end.

(** * Properties *)

(** ** The interpreter *)

Section InterpreterFacts.

Context {World : Type}.
Variable platform : PlatformCall -> World -> option Error * World.

Lemma runActionTree_cons cmd rest w :
  runActionTree platform (cmd :: rest) w =
  bind (attempt platform cmd) (fun _ => runActionTree platform rest) w.
Proof. reflexivity. Qed.

(** The loop body never throws; it leaves the command's request in the
    trace, followed by a log entry when the platform call rejected. *)
Lemma attempt_returns cmd w :
  exists w1 lg,
    attempt platform cmd w = (Returns tt, w1, request cmd ++ lg) /\
    failures platform (cmd :: nil) w = lg /\
    (forall rest, failures platform (cmd :: rest) w = lg ++ failures platform rest w1).
Proof.
  destruct cmd as [ty v].
  unfold attempt, try_catch, dispatch, failures, request; simpl.
  destruct ty; simpl;
    unfold simulateHotkey, open, simulateTyping, invoke, emit, ret;
    try (destruct (platform _ w) as [[e|] w1]; simpl;
         eexists; eexists; repeat split; reflexivity).
  destruct (parseInt v) as [ms|]; simpl;
    eexists; eexists; repeat split; reflexivity.
Qed.

Lemma request_not_logged cmd : logged (request cmd) = [].
Proof.
  destruct cmd as [ty v]; unfold request; simpl.
  destruct ty; try reflexivity.
  destruct (parseInt v); reflexivity.
Qed.

Lemma request_observed cmd : observed (request cmd) = request cmd.
Proof.
  destruct cmd as [ty v]; unfold request; simpl.
  destruct ty; try reflexivity.
  destruct (parseInt v); reflexivity.
Qed.

Lemma request_no_setState cmd : List.filter isSetState (request cmd) = [].
Proof.
  destruct cmd as [ty v]; unfold request; simpl.
  destruct ty; try reflexivity.
  destruct (parseInt v); reflexivity.
Qed.

Lemma failures_all_logged tree : forall w,
  logged (failures platform tree w) = failures platform tree w /\
  observed (failures platform tree w) = [] /\
  List.filter isSetState (failures platform tree w) = [].
Proof.
  induction tree as [|cmd rest IH]; intros w; simpl; [auto|].
  destruct (request cmd) as [|[c| | |] [|]]; try apply IH.
  destruct (platform c w) as [[e|] w1]; [|apply IH].
  destruct (IH w1) as (H1 & H2 & H3).
  unfold logged, observed in *; simpl. rewrite H1, H2, H3. auto.
Qed.

(** The interpreter as a whole: it returns, whatever the platform does;
    the trace, log entries left out, is the requests of the tree in list
    order; the log entries are exactly the failures. *)
Lemma runActionTree_trace tree : forall w,
  exists w' tr,
    runActionTree platform tree w = (Returns tt, w', tr) /\
    observed tr = flat_map request tree /\
    logged tr = failures platform tree w /\
    List.filter isSetState tr = [].
Proof.
  induction tree as [|cmd rest IH]; intros w.
  - exists w, []. repeat split; reflexivity.
  - destruct (attempt_returns cmd w) as (w1 & lg & Hat & Hlg & Hrest).
    destruct (IH w1) as (w' & tr & Hrun & Hobs & Hlog & Hset).
    exists w', ((request cmd ++ lg) ++ tr).
    rewrite runActionTree_cons. unfold bind. rewrite Hat, Hrun.
    destruct (failures_all_logged [cmd] w) as (L1 & L2 & L3).
    rewrite Hlg in L1, L2, L3.
    unfold observed, logged in *.
    rewrite !List.filter_app.
    fold (observed (request cmd)). fold (logged (request cmd)).
    rewrite request_observed, request_not_logged, request_no_setState.
    rewrite L1, L2, L3, Hobs, Hlog, Hset, Hrest.
    simpl. rewrite !app_nil_r. repeat split; reflexivity.
Qed.

Lemma executeHold_trace ev w :
  exists w' tr,
    executeHold platform ev w = (Returns tt, w', tr) /\
    runActionTree platform (default [] (treeHold (payload_settings ev))) w
      = (Returns tt, w', tr) /\
    List.filter isSetState tr = [].
Proof.
  unfold executeHold.
  destruct (treeHold (payload_settings ev)) as [[|c t]|]; simpl;
    try (exists w, []; repeat split; reflexivity).
  destruct (runActionTree_trace (c :: t) w) as (w' & tr & H & _ & _ & Hs).
  exists w', tr. simpl in H. rewrite H. auto.
Qed.

Lemma executeToggle_trace ev w :
  exists w' tr,
    runActionTree platform (default [] (treeToRun ev)) w = (Returns tt, w', tr) /\
    executeToggle platform ev w
      = (Returns tt, w', tr ++ [SetState (action ev) (nextState ev)]) /\
    List.filter isSetState tr = [].
Proof.
  unfold executeToggle, bind, emit.
  destruct (treeToRun ev) as [[|c t]|]; simpl;
    try (exists w, []; repeat split; reflexivity).
  destruct (runActionTree_trace (c :: t) w) as (w' & tr & H & _ & _ & Hs).
  exists w', tr. simpl in H. rewrite H. auto.
Qed.

End InterpreterFacts.

(** ** [parseInt] and [trim] *)

Lemma trimEnd_allWhiteSpace ws : allWhiteSpace ws = true -> trimEnd ws = "".
Proof.
  induction ws as [|c ws IH]; simpl; [reflexivity|].
  intros [Hc Hws]%andb_prop. now rewrite (IH Hws), Hc.
Qed.

Lemma trimEnd_append p ws :
  allWhiteSpace ws = true -> trimEnd (p ++ ws)%string = trimEnd p.
Proof.
  intros Hws. induction p as [|c p IH]; simpl.
  - now apply trimEnd_allWhiteSpace.
  - now rewrite IH.
Qed.

(** Facts on string append. *)

Lemma append_String c s t :
  (String c s ++ t)%string = String c (s ++ t)%string.
Proof. reflexivity. Qed.

Lemma append_empty_r s : (s ++ "")%string = s.
Proof.
  induction s as [|c s IH]; [reflexivity|]. now rewrite append_String, IH.
Qed.

Lemma append_empty_l s : ("" ++ s)%string = s.
Proof. reflexivity. Qed.

Lemma append_assoc a b c : ((a ++ b) ++ c)%string = (a ++ b ++ c)%string.
Proof.
  induction a as [|x a IH]; [reflexivity|]. now rewrite !append_String, IH.
Qed.


Lemma trimStart_skips ws s :
  allWhiteSpace ws = true -> trimStart (ws ++ s)%string = trimStart s.
Proof.
  induction ws as [|c ws IH]; simpl; [reflexivity|].
  intros [Hc Hws]%andb_prop. rewrite Hc. now apply IH.
Qed.

Lemma trimStart_split s :
  exists pre, allWhiteSpace pre = true /\ s = (pre ++ trimStart s)%string.
Proof.
  induction s as [|c s (pre & Hpre & Hs)]; [exists ""; auto|].
  cbn [trimStart]. destruct (isStrWhiteSpaceChar c) eqn:Hc.
  - exists (String c pre). cbn [allWhiteSpace]. rewrite Hc, Hpre, append_String.
    split; [reflexivity|congruence].
  - exists "". auto.
Qed.

Lemma parseDigits_started s : forall a, exists m, parseDigits (Some a) s = Some m.
Proof.
  induction s as [|c s IH]; intros a; simpl; [eauto|].
  destruct (digitValue c); eauto.
Qed.

(** Evaluates [digitValue] on the literal digit in the goal. *)
Ltac eval_digit :=
  match goal with
  | |- context [digitValue ?c] =>
      let v := eval vm_compute in (digitValue c) in
      change (digitValue c) with v; cbv iota
  end.

(** Reading the digits of a decimal numeral, up to the end or to a code
    unit that is no digit. *)
Lemma parseDigits_numeral d : forall (acc : nat) (tail : string),
  match tail with
  | EmptyString => True
  | String c _ => isDigit c = false
  end ->
  parseDigits (Some (Z.of_nat acc)) (NilEmpty.string_of_uint d ++ tail)%string
  = Some (Z.of_nat (Nat.of_uint_acc d acc)).
Proof.
  induction d; intros acc tail Htail;
    cbn [NilEmpty.string_of_uint Nat.of_uint_acc];
    rewrite ?append_String; cbn [parseDigits];
    try (eval_digit; rewrite <- (IHd _ tail Htail); f_equal; f_equal;
         rewrite Nat.tail_mul_spec; cbv [default from_option id]; lia).
  destruct tail as [|c tail]; [reflexivity|].
  change (parseDigits (Some (Z.of_nat acc)) (String c tail) = Some (Z.of_nat acc)).
  cbn [parseDigits]. unfold isDigit in Htail.
  destruct (digitValue c); [discriminate|reflexivity].
Qed.

Lemma parseDigits_fresh_numeral d tail :
  d <> Nil ->
  match tail with
  | EmptyString => True
  | String c _ => isDigit c = false
  end ->
  parseDigits None (NilEmpty.string_of_uint d ++ tail)%string
  = Some (Z.of_nat (Nat.of_uint d)).
Proof.
  intros Hd Htail. unfold Nat.of_uint.
  destruct d; [congruence| ..];
    cbn [NilEmpty.string_of_uint Nat.of_uint_acc];
    rewrite append_String; cbn [parseDigits];
    eval_digit; rewrite <- (parseDigits_numeral _ _ tail Htail); f_equal; f_equal;
    rewrite Nat.tail_mul_spec; cbv [default from_option id]; lia.
Qed.

Lemma to_uint_not_Nil n : Nat.to_uint n <> Nil.
Proof.
  rewrite <- (Unsigned.of_to n) at 1. rewrite Unsigned.to_of.
  apply unorm_nonnil.
Qed.

(** A numeral that is not empty starts with a digit. *)
Lemma numeral_starts_with_digit d :
  d <> Nil ->
  exists c r, NilEmpty.string_of_uint d = String c r /\ isDigit c = true.
Proof. intros Hd. destruct d; [congruence| ..]; simpl; eauto. Qed.



(** ** Rounding to a double *)

Lemma roundMagnitude_exact n : 0 <= n <= 2 ^ 53 -> roundMagnitude n = Some n.
Proof.
  intros [Hlo Hhi]. destruct (Z.eq_dec n (2 ^ 53)) as [->|Hne]; [reflexivity|].
  unfold roundMagnitude.
  assert (Hbits : Z.log2 n + 1 <= 53).
  { destruct (Z.eq_dec n 0) as [->|Hpos]; [simpl; lia|].
    assert (Z.log2 n < 53) by (apply Z.log2_lt_pow2; lia). lia. }
  apply Z.leb_le in Hbits. now rewrite Hbits.
Qed.

(** Up to 2^53 the signed number is the signed integer, the negative zero
    apart. *)
Lemma signedNumber_exact sign m :
  sign = 1 \/ sign = -1 ->
  0 <= m <= 2 ^ 53 ->
  signedNumber sign m
  = if (sign =? -1) && (m =? 0) then NegativeZero else Finite (sign * m).
Proof.
  intros Hsign Hm. unfold signedNumber.
  assert (Hexact : toNumber (sign * m) = Finite (sign * m)).
  { unfold toNumber.
    assert (Habs : Z.abs (sign * m) = m) by (destruct Hsign as [->| ->]; lia).
    rewrite Habs, roundMagnitude_exact by exact Hm.
    f_equal. destruct Hsign as [->| ->]; lia. }
  rewrite Hexact. destruct Hsign as [->| ->]; reflexivity.
Qed.

(** Integers up to 2^53 in size are their own number value. *)
Lemma toNumber_exact z : Z.abs z <= 2 ^ 53 -> toNumber z = Finite z.
Proof.
  intros Hz. unfold toNumber.
  rewrite roundMagnitude_exact by (split; [apply Z.abs_nonneg|exact Hz]).
  f_equal. rewrite Z.mul_comm. apply Z.abs_sgn.
Qed.


Lemma signedNumber_plus m : signedNumber 1 m = toNumber m.
Proof. unfold signedNumber. simpl. now rewrite Z.mul_1_l. Qed.


(** ** [parseInt] by the shape of the text *)

Lemma parseInt_skips ws s :
  allWhiteSpace ws = true -> parseInt (ws ++ s)%string = parseInt s.
Proof. intros Hws. unfold parseInt. now rewrite trimStart_skips. Qed.

Lemma parseInt_minus r :
  parseInt (String "-" r)
  = match parseDigits None r with
    | Some m => Some (signedNumber (-1) m)
    | None => None
    end.
Proof. reflexivity. Qed.

Lemma parseInt_plus r :
  parseInt (String "+" r)
  = match parseDigits None r with
    | Some m => Some (signedNumber 1 m)
    | None => None
    end.
Proof. reflexivity. Qed.

(** A digit is neither white space nor a sign, so [parseInt] starts
    reading digits at once. *)
Lemma parseInt_digit_first c r :
  isDigit c = true ->
  parseInt (String c r)
  = match parseDigits None (String c r) with
    | Some m => Some (signedNumber 1 m)
    | None => None
    end.
Proof.
  intros Hc. unfold parseInt.
  assert (Hshape : trimStart (String c r) = String c r /\
                   Ascii.eqb c "-" = false /\ Ascii.eqb c "+" = false).
  { destruct c as [[] [] [] [] [] [] [] []]; try discriminate Hc;
      repeat split; reflexivity. }
  destruct Hshape as (-> & -> & ->). reflexivity.
Qed.

(** White space, a sign or none, a numeral, and a rest that does not go on
    with a digit: [parseInt] gives the number value of the signed numeral. *)
Lemma parseInt_shape ws sign d tail :
  allWhiteSpace ws = true ->
  sign = "" \/ sign = "+" \/ sign = "-" ->
  d <> Nil ->
  match tail with
  | EmptyString => True
  | String c _ => isDigit c = false
  end ->
  parseInt (ws ++ sign ++ NilEmpty.string_of_uint d ++ tail)%string
  = Some (signedNumber (if String.eqb sign "-" then -1 else 1)
            (Z.of_nat (Nat.of_uint d))).
Proof.
  intros Hws Hsign Hd Htail. rewrite parseInt_skips by exact Hws.
  pose proof (parseDigits_fresh_numeral d tail Hd Htail) as Hdigits.
  destruct Hsign as [->|[->| ->]].
  - rewrite append_empty_l.
    destruct (numeral_starts_with_digit d Hd) as (c & r & Hshape & Hc).
    rewrite Hshape, append_String in *.
    rewrite (parseInt_digit_first c _ Hc), Hdigits. reflexivity.
  - change ("+" ++ ?s)%string with (String "+" s).
    rewrite parseInt_plus, Hdigits. reflexivity.
  - change ("-" ++ ?s)%string with (String "-" s).
    rewrite parseInt_minus, Hdigits. reflexivity.
Qed.

(** [parseInt] gives [NaN] exactly when the text, leading white space and
    one sign taken off, is empty or starts with something that is no digit. *)
Lemma parseInt_NaN_iff (v : string) :
  let unsigned :=
    match trimStart v with
    | String c r => if Ascii.eqb c "-" || Ascii.eqb c "+" then r else String c r
    | EmptyString => EmptyString
    end in
  parseInt v = None <->
  match unsigned with
  | EmptyString => True
  | String c _ => isDigit c = false
  end.
Proof.
  assert (Hdigits : forall s,
    parseDigits None s = None <->
    match s with EmptyString => True | String c _ => isDigit c = false end).
  { intros [|c r]; [simpl; tauto|]. cbn [parseDigits]. unfold isDigit.
    destruct (digitValue c) as [d|]; [|tauto].
    destruct (parseDigits_started r (10 * default 0 None + d)) as (m & ->).
    split; discriminate. }
  unfold parseInt. destruct (trimStart v) as [|c r]; [simpl; tauto|].
  destruct (Ascii.eqb c "-"); [|destruct (Ascii.eqb c "+")];
    cbv beta iota zeta; cbn [orb];
    match goal with
    | |- context [parseDigits None ?s] =>
        pose proof (Hdigits s) as Hs; cbv beta iota in Hs;
        destruct (parseDigits None s) as [m|];
        [ split; [discriminate|intros H; apply Hs in H; discriminate]
        | split; [intros _; now apply Hs|reflexivity] ]
    end.
Qed.


(** ** The handler object and its timers *)

Lemma deliver_app a : forall b rt,
  deliver (a ++ b) rt =
  match deliver a rt with
  | None => None
  | Some (rt1, cs1) =>
      match deliver b rt1 with
      | None => None
      | Some (rt2, cs2) => Some (rt2, cs1 ++ cs2)
      end
  end.
Proof.
  induction a as [|i a IH]; intros b rt; simpl.
  - destruct (deliver b rt) as [[rt2 cs2]|]; reflexivity.
  - destruct (step i rt) as [[rt1 cs1]|]; [|reflexivity].
    rewrite IH. destruct (deliver a rt1) as [[rt2 cs2]|]; [|reflexivity].
    destruct (deliver b rt2) as [[rt3 cs3]|]; [|reflexivity].
    now rewrite app_assoc.
Qed.

(** [setTimeout] always returns a handle that no pending timer has. *)
Lemma step_handlesFresh i rt rt1 cs :
  handlesFresh rt -> step i rt = Some (rt1, cs) -> handlesFresh rt1.
Proof.
  intros Hfresh Hstep t ev. destruct i as [evd|evu|f]; simpl in Hstep.
  - injection Hstep as <- <-. simpl.
    destruct (decide (nextTimeout rt = t)) as [<-|Hne].
    + lia.
    + rewrite lookup_insert_ne by exact Hne.
      intros Hin%Hfresh. lia.
  - unfold onKeyUp in Hstep.
    destruct (pressTimer (this rt)) as [t0|]; simpl in Hstep;
      destruct (isLongPress (this rt)); injection Hstep as <- <-; simpl;
      unfold clearTimeout; try apply Hfresh;
      intros [_ Hin]%lookup_delete_Some; exact (Hfresh _ _ Hin).
  - unfold timerCallback in Hstep.
    destruct (timers rt !! f) as [ev0|]; [|discriminate].
    injection Hstep as <- <-. simpl.
    intros [_ Hin]%lookup_delete_Some. exact (Hfresh _ _ Hin).
Qed.

Lemma deliver_handlesFresh inputs : forall rt rt' cs,
  handlesFresh rt -> deliver inputs rt = Some (rt', cs) -> handlesFresh rt'.
Proof.
  induction inputs as [|i rest IH]; intros rt rt' cs Hfresh Hrun.
  - injection Hrun as <- <-. exact Hfresh.
  - simpl in Hrun.
    destruct (step i rt) as [[rt1 cs1]|] eqn:Hstep; [|discriminate].
    destruct (deliver rest rt1) as [[rt2 cs2]|] eqn:Hrest; [|discriminate].
    injection Hrun as <- <-.
    eapply IH; [eapply step_handlesFresh|]; eauto.
Qed.

Lemma startup_handlesFresh : handlesFresh startup.
Proof. intros t ev. unfold startup; simpl. now rewrite lookup_empty. Qed.



Lemma timersWithin_size pressed rt :
  timersWithin pressed rt -> (size (timers rt) <= 1)%nat.
Proof.
  intros [->|(_ & t & ev & _ & ->)].
  - rewrite map_size_empty. lia.
  - rewrite map_size_singleton. lia.
Qed.

Lemma step_timersWithin pressed i rest rt rt1 cs :
  timersWithin pressed rt ->
  alternating pressed (i :: rest) = true ->
  step i rt = Some (rt1, cs) ->
  exists pressed', alternating pressed' rest = true /\ timersWithin pressed' rt1.
Proof.
  intros Hin Halt Hstep. destruct i as [ev|ev|f]; simpl in *.
  - apply andb_prop in Halt as [Hup Halt].
    destruct pressed; [discriminate|].
    destruct Hin as [Hidle|(? & _)]; [|discriminate].
    injection Hstep as <- <-. exists true. split; [exact Halt|].
    right. split; [reflexivity|]. exists (nextTimeout rt), ev. simpl.
    now rewrite Hidle, insert_empty.
  - apply andb_prop in Halt as [Hdown Halt].
    exists false. split; [exact Halt|]. left.
    unfold onKeyUp in Hstep.
    destruct Hin as [Hidle|(_ & t & ev' & Hpt & Harmed)].
    + destruct (pressTimer (this rt)) as [t|]; simpl in Hstep;
        destruct (isLongPress (this rt)); injection Hstep as <- <-; simpl;
        unfold clearTimeout; rewrite ?Hidle, ?delete_empty; reflexivity.
    + rewrite Hpt in Hstep. simpl in Hstep.
      destruct (isLongPress (this rt)); injection Hstep as <- <-; simpl;
        unfold clearTimeout; now rewrite Harmed, delete_singleton_eq.
  - exists pressed. split; [exact Halt|]. left.
    unfold timerCallback in Hstep.
    destruct Hin as [Hidle|(_ & t & ev' & Hpt & Harmed)].
    + rewrite Hidle, lookup_empty in Hstep. discriminate.
    + rewrite Harmed in Hstep.
      destruct (decide (f = t)) as [->|Hne].
      * rewrite lookup_singleton_eq in Hstep. injection Hstep as <- <-.
        simpl. apply delete_singleton_eq.
      * rewrite lookup_singleton_ne in Hstep by congruence. discriminate.
Qed.

Lemma deliver_timersWithin inputs : forall pressed rt rt' cs,
  timersWithin pressed rt ->
  alternating pressed inputs = true ->
  deliver inputs rt = Some (rt', cs) ->
  exists pressed', timersWithin pressed' rt'.
Proof.
  induction inputs as [|i rest IH]; intros pressed rt rt' cs Hin Halt Hrun.
  - injection Hrun as <- <-. eauto.
  - simpl in Hrun.
    destruct (step i rt) as [[rt1 cs1]|] eqn:Hstep; [|discriminate].
    destruct (deliver rest rt1) as [[rt2 cs2]|] eqn:Hrest; [|discriminate].
    injection Hrun as <- <-.
    destruct (step_timersWithin _ _ _ _ _ _ Hin Halt Hstep) as (p' & Halt' & Hin').
    eapply IH; eauto.
Qed.

Lemma alternating_take inputs : forall pressed n,
  alternating pressed inputs = true ->
  alternating pressed (take n inputs) = true.
Proof.
  induction inputs as [|i rest IH]; intros pressed n Halt.
  - now destruct n.
  - destruct n as [|n]; [reflexivity|]. simpl in *.
    destruct i; try (apply andb_prop in Halt as [-> Halt]; simpl); auto.
Qed.

Lemma pendingFor_length a rt :
  (length (pendingFor a rt) <= size (timers rt))%nat.
Proof.
  unfold pendingFor. rewrite <- length_map_to_list. apply List.filter_length_le.
Qed.

Lemma hostAfter_app tr1 tr2 host :
  hostAfter (tr1 ++ tr2) host = hostAfter tr2 (hostAfter tr1 host).
Proof. apply fold_left_app. Qed.

(** A trace without [setState] leaves the host's toggle states alone. *)
Lemma hostAfter_no_setState tr : forall host,
  List.filter isSetState tr = [] -> hostAfter tr host = host.
Proof.
  induction tr as [|e tr IH]; intros host Hno; [reflexivity|].
  destruct e; simpl in Hno; try discriminate; apply IH; exact Hno.
Qed.

(** The three inputs of a hold cycle, from any state of the handler. *)
Lemma hold_cycle_calls rt evd evu :
  exists rt',
    deliver [KeyDown evd; TimerFires (nextTimeout rt); KeyUp evu] rt =
    Some (rt', [AwaitExecuteHold evd;
                AwaitSetState (action evu) (default 0 (payload_state evd))]).
Proof.
  simpl. unfold timerCallback. simpl. rewrite lookup_insert_eq. simpl.
  eexists. reflexivity.
Qed.

(** The two inputs of a short press, from any state of the handler. *)
Lemma short_press_calls rt evd evu :
  exists rt',
    deliver [KeyDown evd; KeyUp evu] rt = Some (rt', [AwaitExecuteToggle evu]).
Proof. simpl. eexists. reflexivity. Qed.

(** What [onKeyUp] starts is decided by the flag alone. *)
Lemma onKeyUp_calls ev rt :
  snd (onKeyUp ev rt)
  = [if isLongPress (this rt)
     then AwaitSetState (action ev) (initialState (this rt))
     else AwaitExecuteToggle ev].
Proof.
  unfold onKeyUp. destruct (pressTimer (this rt));
    destruct (isLongPress (this rt)) eqn:Hl; simpl; rewrite ?Hl; reflexivity.
Qed.

(** A release at the end of a schedule. *)
Lemma deliver_release inputs ev rt rt1 cs :
  deliver inputs rt = Some (rt1, cs) ->
  exists rt',
    deliver (inputs ++ [KeyUp ev]) rt
    = Some (rt', cs ++ [if isLongPress (this rt1)
                        then AwaitSetState (action ev) (initialState (this rt1))
                        else AwaitExecuteToggle ev]).
Proof.
  intros Hrun. rewrite deliver_app, Hrun. cbn [deliver step].
  pose proof (onKeyUp_calls ev rt1) as Hcalls.
  destruct (onKeyUp ev rt1) as [rt' cs']. simpl in Hcalls. subst cs'.
  exists rt'. now rewrite app_nil_r.
Qed.

(** What each input does to the flag and to the captured state. *)
Lemma step_fields i rt rt1 cs :
  step i rt = Some (rt1, cs) ->
  match i with
  | KeyDown ev =>
      isLongPress (this rt1) = false /\
      initialState (this rt1) = default 0 (payload_state ev)
  | KeyUp _ =>
      isLongPress (this rt1) = isLongPress (this rt) /\
      initialState (this rt1) = initialState (this rt)
  | TimerFires _ =>
      isLongPress (this rt1) = true /\
      initialState (this rt1) = initialState (this rt)
  end.
Proof.
  destruct i as [ev|ev|f]; simpl.
  - intros [= <- <-]. auto.
  - unfold onKeyUp. destruct (pressTimer (this rt));
      destruct (isLongPress (this rt)) eqn:Hl; intros [= <- <-]; simpl; auto.
  - unfold timerCallback. destruct (timers rt !! f); [|discriminate].
    intros [= <- <-]. auto.
Qed.

(** Without a timer firing the flag stays clear; without a press-down the
    captured state stays, and the flag stays set once it is. *)
Lemma deliver_fields inputs : forall rt rt1 cs,
  deliver inputs rt = Some (rt1, cs) ->
  (forallb (fun i => negb (isTimerFires i)) inputs = true ->
   isLongPress (this rt) = false -> isLongPress (this rt1) = false) /\
  (forallb (fun i => negb (isKeyDown i)) inputs = true ->
   initialState (this rt1) = initialState (this rt) /\
   (isLongPress (this rt) = true \/ existsb isTimerFires inputs = true ->
    isLongPress (this rt1) = true)).
Proof.
  induction inputs as [|i rest IH]; intros rt rt1 cs Hrun.
  - injection Hrun as <- <-. simpl. split; [auto|].
    intros _. split; [reflexivity|]. intros [H|H]; [exact H|discriminate].
  - simpl in Hrun.
    destruct (step i rt) as [[rt0 cs0]|] eqn:Hstep; [|discriminate].
    destruct (deliver rest rt0) as [[rt2 cs2]|] eqn:Hrest; [|discriminate].
    injection Hrun as <- <-.
    apply step_fields in Hstep. destruct (IH _ _ _ Hrest) as [IHshort IHheld].
    split.
    + cbn [forallb]. intros [Hi Hall]%andb_prop Hclear.
      apply IHshort; [exact Hall|].
      destruct i; simpl in Hi; try discriminate; destruct Hstep; congruence.
    + cbn [forallb existsb]. intros [Hi Hall]%andb_prop.
      destruct (IHheld Hall) as [Hstate Hflag].
      destruct i as [ev|ev|f]; simpl in Hi; try discriminate;
        destruct Hstep as [Hl Hs]; (split; [congruence|]); simpl.
      * intros [H|H]; apply Hflag; [left; congruence|right; exact H].
      * intros _. apply Hflag. left. exact Hl.
Qed.

Lemma deliver_app_inv a b rt rt2 cs :
  deliver (a ++ b) rt = Some (rt2, cs) ->
  exists rt1 c1 c2,
    deliver a rt = Some (rt1, c1) /\ deliver b rt1 = Some (rt2, c2) /\
    cs = c1 ++ c2.
Proof.
  rewrite deliver_app.
  destruct (deliver a rt) as [[rt1 c1]|] eqn:Ha; [|discriminate].
  destruct (deliver b rt1) as [[rt2' c2]|] eqn:Hb; [|discriminate].
  intros [= <- <-]. exists rt1, c1, c2. auto.
Qed.

(** The fields at the end of a schedule whose last press-down is known. *)
Lemma press_then_fields before evd between rt rt1 cs :
  deliver (before ++ KeyDown evd :: between) rt = Some (rt1, cs) ->
  (forallb (fun i => negb (isTimerFires i)) between = true ->
   isLongPress (this rt1) = false) /\
  (forallb (fun i => negb (isKeyDown i)) between = true ->
   existsb isTimerFires between = true ->
   isLongPress (this rt1) = true /\
   initialState (this rt1) = default 0 (payload_state evd)).
Proof.
  intros (rt0 & c0 & c1 & _ & Hrun & _)%deliver_app_inv.
  simpl in Hrun.
  match type of Hrun with
  | context [deliver between ?r] =>
      destruct (deliver between r) as [[rt2 c2]|] eqn:Hrest
  end; [|discriminate].
  injection Hrun as <- _.
  destruct (deliver_fields _ _ _ _ Hrest) as [Hshort Hheld].
  split.
  - intros Hquiet. apply Hshort; [exact Hquiet|reflexivity].
  - intros Hnopress Hfired. destruct (Hheld Hnopress) as [Hstate Hflag].
    split; [apply Hflag; now right|exact Hstate].
Qed.

(** * The claims *)

(** C1, as amended. For every short press during which no hold timer
    fires between the press-down and the release (its own or, the handler
    being one object for all controls, that of another press), whatever
    other press-downs and releases come in between, the release starts
    [executeToggle] on the release event. The tree it runs is [tree0] when
    the state reported by the release event is 0 or absent, and [tree1]
    otherwise; the state captured at press-down plays no part. After the
    tree, exactly one [setState] is written: 1 when the reported state was
    0, and 0 otherwise. *)
Theorem short_press_runs_tree_of_reported_state
    {World} (platform : PlatformCall -> World -> option Error * World)
    (rt : Runtime) (before : list Input) (evd : KeyEvent)
    (between : list Input) (evu : KeyEvent)
    (rt1 : Runtime) (calls1 : list Call) (w : World) :
  forallb (fun i => negb (isTimerFires i)) between = true ->
  deliver (before ++ KeyDown evd :: between) rt = Some (rt1, calls1) ->
  let reported := default 0 (payload_state evu) in
  let chosen := if reported =? 0 then tree0 (payload_settings evu)
                else tree1 (payload_settings evu) in
  let written := SetState (action evu) (if reported =? 0 then 1 else 0) in
  (exists rt', deliver (before ++ KeyDown evd :: between ++ [KeyUp evu]) rt
               = Some (rt', calls1 ++ [AwaitExecuteToggle evu])) /\
  exists w' tr,
    runActionTree platform (default [] chosen) w = (Returns tt, w', tr) /\
    runCall platform (AwaitExecuteToggle evu) w = (Returns tt, w', tr ++ [written]) /\
    List.filter isSetState (tr ++ [written]) = [written].
Proof.
  intros Hquiet Hrun reported chosen written. split.
  - destruct (press_then_fields _ _ _ _ _ _ Hrun) as (Hshort & _).
    destruct (deliver_release _ evu _ _ _ Hrun) as (rt' & Hup).
    rewrite (Hshort Hquiet) in Hup. exists rt'.
    rewrite <- Hup. f_equal. now rewrite <- app_assoc.
  - destruct (executeToggle_trace platform evu w) as (w' & tr & Htree & Htog & Hno).
    exists w', tr. repeat split; [exact Htree|exact Htog|].
    rewrite List.filter_app, Hno. reflexivity.
Qed.

Lemma short_press_runs_tree_of_reported_state_witness :
  exists rt' calls1,
    deliver ([KeyDown (otherEvent 1); KeyUp (otherEvent 1)]
               ++ KeyDown (sampleEvent 0)
               :: [KeyDown (otherEvent 0)] ++ [KeyUp (sampleEvent 0)]) startup
    = Some (rt', calls1 ++ [AwaitExecuteToggle (sampleEvent 0)]).
Proof.
  assert (Hrun : exists rt1 calls1,
    deliver ([KeyDown (otherEvent 1); KeyUp (otherEvent 1)]
               ++ KeyDown (sampleEvent 0) :: [KeyDown (otherEvent 0)]) startup
    = Some (rt1, calls1)) by (eexists; eexists; reflexivity).
  destruct Hrun as (rt1 & calls1 & Hrun).
  destruct (short_press_runs_tree_of_reported_state obliging startup
              [KeyDown (otherEvent 1); KeyUp (otherEvent 1)] (sampleEvent 0)
              [KeyDown (otherEvent 0)] (sampleEvent 0) rt1 calls1 tt eq_refl Hrun)
    as ((rt' & Hup) & _).
  exists rt', calls1. exact Hup.
Defined.

(** C1 as stated fails: with state 0 at press-down and at release, the
    short press types the text of [tree0], not that of [tree1]. *)
Lemma short_press_in_state_0_runs_tree0 :
  ~ (forall (evd evu : KeyEvent) rt' calls,
       deliver [KeyDown evd; KeyUp evu] startup = Some (rt', calls) ->
       let captured := default 0 (payload_state evd) in
       let claimed := if captured =? 0 then tree1 (payload_settings evu)
                      else tree0 (payload_settings evu) in
       exists w' tr,
         runActionTree obliging (default [] claimed) tt = (Returns tt, w', tr) /\
         map (fun c => snd (runCall obliging c tt)) calls
         = [tr ++ [SetState (action evu) (1 - captured)]]).
Proof.
  intros H.
  destruct (H (sampleEvent 0) (sampleEvent 0) _ _ eq_refl) as (w' & tr & Hrun & Hcalls).
  vm_compute in Hrun. injection Hrun as _ <-.
  vm_compute in Hcalls. discriminate.
Qed.

(** The write of a short press follows the state the release event
    reports, not the one captured at press-down: pressed in state 0 and
    released with state 1 reported, the handler runs [tree1] and writes 0. *)
Example short_press_follows_release_state :
  map (fun c => snd (runCall obliging c tt))
      (default [] (snd <$> deliver [KeyDown (sampleEvent 0); KeyUp (sampleEvent 1)] startup))
  = [[Invoke (SimulateTyping "one"); SetState "key" 0]].
Proof. vm_compute. reflexivity. Qed.

(** C2, as amended. After a hold cycle (a hold timer fires between the
    press-down and the release) during which no other press-down reaches
    the handler, the release starts one [setState] with the state captured
    at press-down. Whatever the host's toggle states are when the release
    is handled, and whatever the hold tree did and whether its effects
    land before or after the write, the control's toggle state is the
    captured one afterwards; when the press-down event reported the host's
    value, the value after the cycle is the value before it. *)
Theorem hold_release_restores_captured_state
    {World} (platform : PlatformCall -> World -> option Error * World)
    (rt : Runtime) (before : list Input) (evd : KeyEvent)
    (between : list Input) (evu : KeyEvent)
    (rt1 : Runtime) (calls1 : list Call) :
  forallb (fun i => negb (isKeyDown i)) between = true ->
  existsb isTimerFires between = true ->
  deliver (before ++ KeyDown evd :: between) rt = Some (rt1, calls1) ->
  let captured := default 0 (payload_state evd) in
  let restore := AwaitSetState (action evu) captured in
  (exists rt', deliver (before ++ KeyDown evd :: between ++ [KeyUp evu]) rt
               = Some (rt', calls1 ++ [restore])) /\
  (forall (w wh : World) (host : gmap ControlId Z),
     let held := snd (runCall platform (AwaitExecuteHold evd) wh) in
     let released := snd (runCall platform restore w) in
     hostAfter (held ++ released) host !! action evu = Some captured /\
     hostAfter (released ++ held) host !! action evu = Some captured) /\
  (forall (earlier : gmap ControlId Z) (s : Z),
     earlier !! action evd = Some s ->
     payload_state evd = Some s ->
     action evu = action evd ->
     forall (w wh : World) (host : gmap ControlId Z),
       let held := snd (runCall platform (AwaitExecuteHold evd) wh) in
       let released := snd (runCall platform restore w) in
       hostAfter (held ++ released) host !! action evd = earlier !! action evd /\
       hostAfter (released ++ held) host !! action evd = earlier !! action evd).
Proof.
  intros Hnopress Hfired Hrun captured restore.
  assert (Hwrite : forall (w wh : World) (host : gmap ControlId Z),
     let held := snd (runCall platform (AwaitExecuteHold evd) wh) in
     let released := snd (runCall platform restore w) in
     hostAfter (held ++ released) host !! action evu = Some captured /\
     hostAfter (released ++ held) host !! action evu = Some captured).
  { intros w wh host. simpl.
    destruct (executeHold_trace platform evd wh) as (w' & tr & -> & _ & Hno).
    simpl. rewrite !hostAfter_app, !(hostAfter_no_setState tr) by exact Hno.
    simpl. now rewrite lookup_insert_eq. }
  split; [|split; [exact Hwrite|]].
  - destruct (press_then_fields _ _ _ _ _ _ Hrun) as (_ & Hheld).
    destruct (Hheld Hnopress Hfired) as [Hflag Hstate].
    destruct (deliver_release _ evu _ _ _ Hrun) as (rt' & Hup).
    rewrite Hflag, Hstate, <- app_assoc in Hup. exists rt'. exact Hup.
  - intros earlier s Hearlier Hreported Hsame w wh host held released.
    destruct (Hwrite w wh host) as [Hfirst Hlast].
    rewrite Hearlier, <- Hsame.
    replace s with captured by (unfold captured; now rewrite Hreported).
    split; [exact Hfirst|exact Hlast].
Qed.

Lemma hold_release_restores_captured_state_witness :
  (exists rt' calls1,
     deliver ([] ++ KeyDown (sampleEvent 1)
                :: [TimerFires 0%nat; KeyUp (otherEvent 0)]
                ++ [KeyUp (sampleEvent 0)]) startup
     = Some (rt', calls1 ++ [AwaitSetState "key" 1])) /\
  let held := snd (runCall obliging (AwaitExecuteHold (sampleEvent 1)) tt) in
  let released := snd (runCall obliging (AwaitSetState "key" 1) tt) in
  hostAfter (held ++ released) {["key" := 0]} !! "key"
  = ({["key" := 1]} : gmap ControlId Z) !! "key".
Proof.
  assert (Hrun : exists rt1 calls1,
    deliver ([] ++ KeyDown (sampleEvent 1)
               :: [TimerFires 0%nat; KeyUp (otherEvent 0)]) startup
    = Some (rt1, calls1)) by (eexists; eexists; reflexivity).
  destruct Hrun as (rt1 & calls1 & Hrun).
  destruct (hold_release_restores_captured_state
              obliging startup [] (sampleEvent 1)
              [TimerFires 0%nat; KeyUp (otherEvent 0)] (sampleEvent 0)
              rt1 calls1 eq_refl eq_refl Hrun) as ((rt' & Hup) & _ & Hsame).
  split; [exists rt', calls1; exact Hup|].
  apply (Hsame {["key" := 1]} 1); [|reflexivity|reflexivity].
  vm_compute. reflexivity.
Defined.

(** C2 as stated fails: while control "key", pressed in state 0, is held,
    a press-down of control "other" in state 1 overwrites the captured
    state, and the release of "key" writes 1 to it. *)
Lemma hold_with_another_press_down_writes_its_state :
  ~ (forall (evd evu : KeyEvent) (between : list Input) rt' calls,
       action evu = action evd ->
       existsb isTimerFires between = true ->
       deliver (KeyDown evd :: between ++ [KeyUp evu]) startup = Some (rt', calls) ->
       forall host : gmap ControlId Z,
         hostAfter (flat_map (fun c => snd (runCall obliging c tt)) calls) host
         !! action evd
         = Some (default 0 (payload_state evd))).
Proof.
  intros H.
  specialize (H (sampleEvent 0) (sampleEvent 0)
                [KeyDown (otherEvent 1); TimerFires 0%nat] _ _
                eq_refl eq_refl eq_refl ∅).
  vm_compute in H. discriminate.
Qed.




(** What the two calls of that schedule do: the text of [tree0] is typed
    and the state written, then the target of [treeHold] is opened. *)
Example overlapping_press_effects :
  map (fun c => snd (runCall obliging c tt))
      (default [] (snd <$> deliver [KeyDown (sampleEvent 0); KeyDown (otherEvent 0);
                                    KeyUp (sampleEvent 0); TimerFires 0%nat] startup))
  = [[Invoke (SimulateTyping "zero"); SetState "key" 1];
     [Invoke (Open "https://example.org")]].
Proof. vm_compute. reflexivity. Qed.

(** C4, as amended. As long as press-downs and releases reach the handler
    alternately, starting with no timer pending, at most one hold timer is
    pending at any time (after every prefix of the schedule), for the
    handler as a whole and so for each control. *)
Theorem alternating_presses_keep_one_timer
    (rt : Runtime) (inputs : list Input) (n : nat)
    (rt' : Runtime) (calls : list Call) :
  timers rt = ∅ ->
  alternating false inputs = true ->
  deliver (take n inputs) rt = Some (rt', calls) ->
  (size (timers rt') <= 1)%nat /\
  forall a, (length (pendingFor a rt') <= 1)%nat.
Proof.
  intros Hidle Halt Hrun.
  apply (alternating_take _ _ n) in Halt.
  destruct (deliver_timersWithin _ false rt rt' calls (or_introl Hidle) Halt Hrun)
    as (pressed' & Hin).
  apply timersWithin_size in Hin. split; [exact Hin|].
  intros a. pose proof (pendingFor_length a rt'). lia.
Qed.

Lemma alternating_presses_keep_one_timer_witness :
  exists rt' calls,
    deliver (take 3 [KeyDown (sampleEvent 0); KeyUp (sampleEvent 0);
                     KeyDown (sampleEvent 1); TimerFires 1%nat;
                     KeyUp (sampleEvent 1)]) startup = Some (rt', calls) /\
    (size (timers rt') <= 1)%nat.
Proof.
  eexists. eexists. split; [reflexivity|].
  eapply (alternating_presses_keep_one_timer startup
            [KeyDown (sampleEvent 0); KeyUp (sampleEvent 0);
             KeyDown (sampleEvent 1); TimerFires 1%nat;
             KeyUp (sampleEvent 1)] 3); reflexivity.
Defined.

(** C4 as stated fails: a second press-down on the same control, with the
    timer of the first still pending, is accepted and leaves both timers
    pending for that control. *)
Lemma second_press_down_leaves_two_timers :
  ~ (forall (inputs : list Input) rt' calls (a : ControlId),
       deliver inputs startup = Some (rt', calls) ->
       (length (pendingFor a rt') <= 1)%nat).
Proof.
  intros H.
  specialize (H [KeyDown (sampleEvent 0); KeyDown (sampleEvent 0)] _ _ "key" eq_refl).
  vm_compute in H. lia.
Qed.

(** C10. The fields live in the one handler object, whatever control an
    event is for. After a press-down for [evA] and then one for [evB]
    (any two controls), the captured state and the stored handle are those
    of [evB]; the timer of [evA] is still pending but its handle is stored
    nowhere. A release for [evC] (any control) then clears the stored
    timer, that of [evB], and leaves the timer of [evA] pending. *)
Theorem handler_fields_are_shared (rt : Runtime) (evA evB evC : KeyEvent) :
  let tA := nextTimeout rt in
  let tB := S (nextTimeout rt) in
  let rt1 := fst (onKeyDown evA rt) in
  let rt2 := fst (onKeyDown evB rt1) in
  let rt3 := fst (onKeyUp evC rt2) in
  (pressTimer (this rt1) = Some tA /\
   initialState (this rt1) = default 0 (payload_state evA) /\
   timers rt1 !! tA = Some evA) /\
  (pressTimer (this rt2) = Some tB /\
   initialState (this rt2) = default 0 (payload_state evB) /\
   timers rt2 !! tA = Some evA /\
   timers rt2 !! tB = Some evB) /\
  (pressTimer (this rt3) = None /\
   timers rt3 !! tB = None /\
   timers rt3 !! tA = Some evA).
Proof.
  simpl. unfold clearTimeout.
  rewrite lookup_delete_eq, lookup_delete_ne by lia.
  rewrite !lookup_insert_eq, lookup_insert_ne by lia.
  rewrite lookup_insert_eq. repeat split; reflexivity.
Qed.

(** C5. Whatever the platform does on each call, [runActionTree] returns
    and throws nothing; the calls and waits it leaves in the trace are the
    requests of the tree's commands in list order; and the trace holds one
    log entry for every platform call that rejected, and no other. *)
Theorem runActionTree_isolates_failures
    {World} (platform : PlatformCall -> World -> option Error * World)
    (tree : ActionTree) (w : World) :
  exists w' tr,
    runActionTree platform tree w = (Returns tt, w', tr) /\
    observed tr = flat_map request tree /\
    logged tr = failures platform tree w.
Proof.
  destruct (runActionTree_trace platform tree w) as (w' & tr & H1 & H2 & H3 & _).
  exists w', tr. auto.
Qed.

(** The tree [url "bad"; text "X"] on a platform where every call rejects:
    both calls are made, in order, and each failure is logged. *)
Example rejected_url_does_not_stop_text :
  runActionTree hostile
    [{| type := url; value := "bad" |}; {| type := text; value := "X" |}] tt
  = (Returns tt, tt,
     [Invoke (Open "bad"); ConsoleError url "rejected";
      Invoke (SimulateTyping "X"); ConsoleError text "rejected"]).
Proof. reflexivity. Qed.




(** C7. On every platform, also one on which every command of the tree
    fails, [executeToggle] returns and its trace ends with the write of
    the next state; [executeHold] returns as well, and the release of a
    hold cycle starts the restoring write, which does not depend on the
    tree at all. *)
Theorem failing_commands_do_not_stop_the_state_write
    {World} (platform : PlatformCall -> World -> option Error * World)
    (rt : Runtime) (evd evu : KeyEvent) (w : World) :
  let restore := AwaitSetState (action evu) (default 0 (payload_state evd)) in
  ((exists rt', deliver [KeyDown evd; KeyUp evu] rt
                = Some (rt', [AwaitExecuteToggle evu])) /\
   exists w' tr,
     runCall platform (AwaitExecuteToggle evu) w
     = (Returns tt, w', tr ++ [SetState (action evu) (nextState evu)])) /\
  ((exists rt', deliver [KeyDown evd; TimerFires (nextTimeout rt); KeyUp evu] rt
                = Some (rt', [AwaitExecuteHold evd; restore])) /\
   (exists w' tr, runCall platform (AwaitExecuteHold evd) w = (Returns tt, w', tr)) /\
   runCall platform restore w
   = (Returns tt, w, [SetState (action evu) (default 0 (payload_state evd))])).
Proof.
  intros restore. split; split.
  - apply short_press_calls.
  - destruct (executeToggle_trace platform evu w) as (w' & tr & _ & H & _).
    exists w', tr. exact H.
  - apply hold_cycle_calls.
  - split; [|reflexivity].
    destruct (executeHold_trace platform evd w) as (w' & tr & H & _).
    exists w', tr. exact H.
Qed.

(** C8. [runActionTree] on the empty tree returns at once with an empty
    trace and an unchanged world; [executeHold] with an absent or empty
    [treeHold] does the same; [executeToggle] with an absent or empty tree
    to run makes no platform call and only writes the next state. *)
Theorem empty_or_absent_tree_is_a_no_op
    {World} (platform : PlatformCall -> World -> option Error * World)
    (w : World) :
  runActionTree platform [] w = (Returns tt, w, []) /\
  (forall ev,
     treeHold (payload_settings ev) = None \/ treeHold (payload_settings ev) = Some [] ->
     executeHold platform ev w = (Returns tt, w, [])) /\
  (forall ev,
     treeToRun ev = None \/ treeToRun ev = Some [] ->
     executeToggle platform ev w
     = (Returns tt, w, [SetState (action ev) (nextState ev)])).
Proof.
  split; [reflexivity|]. split; intros ev [Hnone|Hempty].
  - unfold executeHold. now rewrite Hnone.
  - unfold executeHold. now rewrite Hempty.
  - unfold executeToggle, bind. now rewrite Hnone.
  - unfold executeToggle, bind. now rewrite Hempty.
Qed.

Lemma empty_or_absent_tree_is_a_no_op_witness :
  let ev := {| action := "key"; payload_state := Some 0;
               payload_settings :=
                 {| tree0 := Some []; tree1 := Some [typeOne]; treeHold := None |} |} in
  executeHold hostile ev tt = (Returns tt, tt, []) /\
  executeToggle hostile ev tt = (Returns tt, tt, [SetState "key" 1]).
Proof.
  intros ev.
  pose proof (empty_or_absent_tree_is_a_no_op hostile tt) as (_ & Hhold & Htoggle).
  split.
  - apply (Hhold ev). left. reflexivity.
  - apply (Htoggle ev). right. reflexivity.
Defined.

(** C9, as amended. [browseFile] yields the empty string when the dialog
    command reports an error (as it does when the user cancels); without
    an error it yields the command's output trimmed at both ends, which is
    the chosen path when the command printed the path followed by a line
    end and the path itself neither starts nor ends with white space (and
    the empty string when it printed nothing). On a message whose event is
    "browseFile", [onSendToPlugin] replies to the sending control with
    event "filePicked", that file path, and the message's [index] and
    [tree]. *)
Theorem browseFile_result_is_sent_as_filePicked :
  (forall e out, browseFile {| err := Some e; stdout := out |} = "") /\
  (forall out, browseFile {| err := None; stdout := out |} = trim out) /\
  (forall path ending,
     trim path = path -> allWhiteSpace ending = true ->
     browseFile {| err := None; stdout := (path ++ ending)%string |} = path) /\
  (forall ev dialog,
     payload_event ev = JsString "browseFile" ->
     onSendToPlugin ev dialog
     = Some (sender ev,
             {| event := "filePicked";
                filePath := browseFile dialog;
                index := payload_index ev;
                tree := payload_tree ev |})).
Proof.
  repeat split.
  - intros path ending Htrimmed Hending. unfold browseFile; simpl.
    unfold trim in *. now rewrite trimEnd_append.
  - intros ev dialog Hevent. unfold onSendToPlugin. now rewrite Hevent.
Qed.

Lemma browseFile_result_is_sent_as_filePicked_witness :
  let crlf := String (ascii_of_nat 13) (String (ascii_of_nat 10) "") in
  let ev := {| sender := "key"; payload_event := JsString "browseFile";
               payload_index := JsNumber 2; payload_tree := JsString "tree1" |} in
  let dialog := {| err := None; stdout := ("C:\tools\run me.bat" ++ crlf)%string |} in
  onSendToPlugin ev dialog
  = Some ("key", {| event := "filePicked"; filePath := "C:\tools\run me.bat";
                    index := JsNumber 2; tree := JsString "tree1" |}).
Proof.
  intros crlf ev dialog.
  pose proof browseFile_result_is_sent_as_filePicked as (_ & _ & Hpath & Hreply).
  rewrite (Hreply ev dialog eq_refl).
  unfold dialog. rewrite (Hpath "C:\tools\run me.bat" crlf); reflexivity.
Defined.

(** C9 as stated fails: when the chosen file is "/tmp/notes " (the name
    ends with a space) and the dialog command prints that path and a line
    end, [browseFile] gives "/tmp/notes", not the chosen path. *)
Lemma chosen_path_ending_in_a_space_is_cut :
  ~ (forall path : string,
       browseFile {| err := None; stdout := (path ++ String "010" "")%string |}
       = path).
Proof.
  intros H. specialize (H "/tmp/notes "). vm_compute in H. discriminate.
Qed.

(** * Further properties of the interpreter *)

(** A trace without log entries is what the platform side sees. *)
Lemma observed_when_nothing_logged tr : logged tr = [] -> observed tr = tr.
Proof.
  unfold logged, observed. induction tr as [|e tr IH]; simpl; [reflexivity|].
  destruct (isConsoleError e); simpl; [discriminate|].
  intros H. now rewrite IH.
Qed.

Lemma failures_none {World}
    (platform : PlatformCall -> World -> option Error * World) tree :
  (forall c w, fst (platform c w) = None) ->
  forall w, failures platform tree w = [].
Proof.
  intros Hquiet. induction tree as [|cmd rest IH]; intros w; simpl; [reflexivity|].
  destruct (request cmd) as [|[c| | |] [|]]; try apply IH.
  specialize (Hquiet c w). destruct (platform c w) as [[e|] w1]; simpl in Hquiet;
    [discriminate|apply IH].
Qed.

(** On a platform whose calls all resolve, the trace is the requests of
    the tree and nothing else. *)
Lemma runActionTree_quiet {World}
    (platform : PlatformCall -> World -> option Error * World) tree w :
  (forall c w, fst (platform c w) = None) ->
  exists w', runActionTree platform tree w = (Returns tt, w', flat_map request tree).
Proof.
  intros Hquiet.
  destruct (runActionTree_trace platform tree w) as (w' & tr & Hrun & Hobs & Hlog & _).
  rewrite (failures_none platform tree Hquiet) in Hlog.
  rewrite (observed_when_nothing_logged tr Hlog) in Hobs.
  exists w'. now rewrite Hrun, Hobs.
Qed.

(** X1. Running a tree made of two lists is running the first and then,
    from the world it leaves, the second; both return and the trace is the
    two traces one after the other. *)
Theorem runActionTree_of_appended_trees
    {World} (platform : PlatformCall -> World -> option Error * World)
    (first second : ActionTree) (w : World) :
  exists w1 tr1 w2 tr2,
    runActionTree platform first w = (Returns tt, w1, tr1) /\
    runActionTree platform second w1 = (Returns tt, w2, tr2) /\
    runActionTree platform (first ++ second) w = (Returns tt, w2, tr1 ++ tr2).
Proof.
  revert w. induction first as [|cmd first IH]; intros w.
  - destruct (runActionTree_trace platform second w) as (w2 & tr2 & H2 & _).
    exists w, [], w2, tr2. auto.
  - destruct (attempt_returns platform cmd w) as (w0 & lg & Hat & _).
    destruct (IH w0) as (w1 & tr1 & w2 & tr2 & H1 & H2 & H12).
    exists w1, ((request cmd ++ lg) ++ tr1), w2, tr2.
    repeat split; [|exact H2|].
    + rewrite runActionTree_cons. unfold bind. now rewrite Hat, H1.
    + change ((cmd :: first) ++ second) with (cmd :: (first ++ second)).
      rewrite runActionTree_cons. unfold bind. rewrite Hat, H12.
      now rewrite app_assoc.
Qed.

(** X2. No tree can change a toggle state: whatever the commands and the
    platform, the trace of [runActionTree], and so that of [executeHold],
    holds no [setState], and the host's states are the same after it. *)
Theorem trees_never_write_the_toggle_state
    {World} (platform : PlatformCall -> World -> option Error * World)
    (tree : ActionTree) (ev : KeyEvent) (w : World) (host : gmap ControlId Z) :
  List.filter isSetState (snd (runActionTree platform tree w)) = [] /\
  hostAfter (snd (runActionTree platform tree w)) host = host /\
  List.filter isSetState (snd (executeHold platform ev w)) = [] /\
  hostAfter (snd (executeHold platform ev w)) host = host.
Proof.
  destruct (runActionTree_trace platform tree w) as (w1 & tr1 & -> & _ & _ & Hno1).
  destruct (executeHold_trace platform ev w) as (w2 & tr2 & -> & _ & Hno2).
  simpl. repeat split; auto using hostAfter_no_setState.
Qed.

(** X3. When no platform call rejects, nothing is logged: the trace is
    exactly the calls and waits of the commands, in order. *)
Theorem no_rejection_no_log_entry
    {World} (platform : PlatformCall -> World -> option Error * World)
    (tree : ActionTree) (w : World) :
  (forall c w, fst (platform c w) = None) ->
  snd (runActionTree platform tree w) = flat_map request tree /\
  logged (snd (runActionTree platform tree w)) = [].
Proof.
  intros Hquiet.
  destruct (runActionTree_quiet platform tree w Hquiet) as (w' & ->). simpl.
  split; [reflexivity|].
  destruct (runActionTree_trace platform tree w) as (w1 & tr & Hrun & _ & Hlog & _).
  destruct (runActionTree_quiet platform tree w Hquiet) as (w2 & Hrun2).
  rewrite Hrun in Hrun2. injection Hrun2 as _ <-.
  rewrite Hlog. now apply failures_none.
Qed.

Lemma no_rejection_no_log_entry_witness :
  snd (runActionTree obliging [typeZero; openHeld] tt)
  = [Invoke (SimulateTyping "zero"); Invoke (Open "https://example.org")].
Proof.
  apply (no_rejection_no_log_entry obliging [typeZero; openHeld] tt).
  intros c w. reflexivity.
Defined.

(** X4. The helpers over [exec] swallow what [exec] reports through its
    callback: as long as [exec] does not throw, no command of a tree is
    ever logged as failed by [runActionTree], on either platform and
    whatever errors the callbacks receive. *)
Theorem callback_errors_never_reach_the_catch
    {W} (isWin : bool) (exec : string -> W -> ExecOutcome * W)
    (tree : ActionTree) (w : W) (openFailed : list Error) :
  (forall cmd w0, exists err, fst (exec cmd w0) = ExecCallsBack err) ->
  snd (runActionTree (shellPlatform isWin exec) tree (w, openFailed))
  = flat_map request tree.
Proof.
  intros Hcallback.
  destruct (runActionTree_quiet (shellPlatform isWin exec) tree (w, openFailed))
    as (w' & ->); [|reflexivity].
  intros c [w0 lg]. unfold shellPlatform.
  destruct (Hcallback (execCommand isWin c) w0) as (err & Herr).
  destruct (exec (execCommand isWin c) w0) as [out w1]. simpl in Herr. subst out.
  destruct c, err; reflexivity.
Qed.

Lemma callback_errors_never_reach_the_catch_witness :
  snd (runActionTree
         (shellPlatform true (fun _ (w : unit) => (ExecCallsBack (Some "exit 1"), w)))
         [typeZero; openHeld] (tt, []))
  = [Invoke (SimulateTyping "zero"); Invoke (Open "https://example.org")].
Proof.
  apply (callback_errors_never_reach_the_catch true
           (fun _ (w : unit) => (ExecCallsBack (Some "exit 1"), w))
           [typeZero; openHeld] tt []).
  intros cmd w0. eexists. reflexivity.
Defined.

(** After [executeToggle] the event's control has the next state and every
    other control the state it had. *)
Lemma hostAfter_executeToggle {World}
    (platform : PlatformCall -> World -> option Error * World)
    (ev : KeyEvent) (w : World) (host : gmap ControlId Z) :
  hostAfter (snd (executeToggle platform ev w)) host !! action ev
  = Some (nextState ev) /\
  forall other, other <> action ev ->
    hostAfter (snd (executeToggle platform ev w)) host !! other = host !! other.
Proof.
  destruct (executeToggle_trace platform ev w) as (w' & tr & _ & -> & Hno).
  simpl. rewrite hostAfter_app, (hostAfter_no_setState tr) by exact Hno. simpl.
  split; [apply lookup_insert_eq|].
  intros other Hother. apply lookup_insert_ne. congruence.
Qed.

(** X5. A short press writes only the state of its own control: after
    [executeToggle] that control has the next state, and every other
    control has the state it had. *)
Theorem executeToggle_writes_only_its_control
    {World} (platform : PlatformCall -> World -> option Error * World)
    (ev : KeyEvent) (w : World) (host : gmap ControlId Z) :
  hostAfter (snd (executeToggle platform ev w)) host !! action ev
  = Some (nextState ev) /\
  forall other, other <> action ev ->
    hostAfter (snd (executeToggle platform ev w)) host !! other = host !! other.
Proof. apply hostAfter_executeToggle. Qed.

Lemma executeToggle_writes_only_its_control_witness :
  hostAfter (snd (executeToggle hostile (sampleEvent 0) tt))
    {["key" := 0; "other" := 0]} !! "other"
  = ({["key" := 0; "other" := 0]} : gmap ControlId Z) !! "other".
Proof.
  apply (executeToggle_writes_only_its_control hostile (sampleEvent 0) tt).
  discriminate.
Defined.

(** X6. Two short presses of one control, the second release reporting
    what the host holds after the first, run the two different trees, and
    the host ends with state 0 when the first release reported 0 or
    nothing and with state 1 otherwise: a state that is neither 0 nor 1 is
    not come back to. *)
Theorem two_short_presses_settle_on_0_or_1
    {World} (platform : PlatformCall -> World -> option Error * World)
    (first second : KeyEvent) (w1 w2 : World) (host : gmap ControlId Z) :
  let host1 := hostAfter (snd (executeToggle platform first w1)) host in
  let host2 := hostAfter (snd (executeToggle platform second w2)) host1 in
  action second = action first ->
  payload_settings second = payload_settings first ->
  payload_state second = host1 !! action first ->
  host2 !! action first = Some (if currentState first =? 0 then 0 else 1) /\
  treeToRun first
  = (if currentState first =? 0 then tree0 else tree1) (payload_settings first) /\
  treeToRun second
  = (if currentState first =? 0 then tree1 else tree0) (payload_settings first).
Proof.
  intros host1 host2 Hcontrol Hsettings Hstate.
  destruct (hostAfter_executeToggle platform first w1 host) as [Hfirst _].
  destruct (hostAfter_executeToggle platform second w2 host1) as [Hsecond _].
  fold host1 in Hfirst. fold host2 in Hsecond.
  rewrite Hfirst in Hstate. rewrite Hcontrol in Hsecond. rewrite Hsecond.
  unfold nextState, treeToRun, currentState in *. rewrite Hstate, Hsettings.
  destruct (default 0 (payload_state first) =? 0); simpl; auto.
Qed.

Lemma two_short_presses_settle_on_0_or_1_witness :
  hostAfter (snd (executeToggle obliging (sampleEvent 0) tt))
    (hostAfter (snd (executeToggle obliging (sampleEvent 2) tt)) {["key" := 2]})
  !! "key" = Some 1.
Proof.
  apply (two_short_presses_settle_on_0_or_1 obliging
           (sampleEvent 2) (sampleEvent 0) tt tt {["key" := 2]});
    [reflexivity|reflexivity|].
  vm_compute. reflexivity.
Defined.

(** * Further properties of [parseInt], [trim] and the inspector reply *)


(** X7. [parseInt] reads the decimal numeral of a natural number as the
    number value of that number, also with a plus sign in front, and with
    a minus sign in front as the number for the negated number; up to 2^53
    these are the number itself and its negation (the negative zero for
    "-0"), so a delay written as a plain number of milliseconds up to 2^53
    waits that number. *)
Theorem parseInt_reads_back_decimal_numerals (n : nat) :
  let numeral := NilEmpty.string_of_uint (Nat.to_uint n) in
  (parseInt numeral = Some (toNumber (Z.of_nat n)) /\
   parseInt (String "-" numeral) = Some (signedNumber (-1) (Z.of_nat n)) /\
   parseInt (String "+" numeral) = Some (toNumber (Z.of_nat n))) /\
  (Z.of_nat n <= 2 ^ 53 ->
   parseInt numeral = Some (Finite (Z.of_nat n)) /\
   parseInt (String "-" numeral)
   = Some (if (n =? 0)%nat then NegativeZero else Finite (- Z.of_nat n)) /\
   parseInt (String "+" numeral) = Some (Finite (Z.of_nat n))).
Proof.
  intros numeral.
  assert (Hall :
    parseInt numeral = Some (toNumber (Z.of_nat n)) /\
    parseInt (String "-" numeral) = Some (signedNumber (-1) (Z.of_nat n)) /\
    parseInt (String "+" numeral) = Some (toNumber (Z.of_nat n))).
  { pose proof (to_uint_not_Nil n) as Hd.
    pose proof (fun sign Hsign =>
                  parseInt_shape "" sign (Nat.to_uint n) "" eq_refl Hsign Hd I)
      as Hshape.
    rewrite Unsigned.of_to in Hshape.
    repeat split.
    - specialize (Hshape "" (or_introl eq_refl)).
      rewrite !append_empty_l, append_empty_r in Hshape. fold numeral in Hshape.
      rewrite Hshape. simpl String.eqb. now rewrite signedNumber_plus.
    - specialize (Hshape "-" (or_intror (or_intror eq_refl))).
      rewrite append_empty_l, append_empty_r in Hshape.
      change ("-" ++ ?s)%string with (String "-" s) in Hshape. fold numeral in Hshape.
      rewrite Hshape. reflexivity.
    - specialize (Hshape "+" (or_intror (or_introl eq_refl))).
      rewrite append_empty_l, append_empty_r in Hshape.
      change ("+" ++ ?s)%string with (String "+" s) in Hshape. fold numeral in Hshape.
      rewrite Hshape. simpl String.eqb. now rewrite signedNumber_plus. }
  split; [exact Hall|].
  intros Hsmall. destruct Hall as (-> & -> & ->).
  rewrite !toNumber_exact by lia.
  rewrite signedNumber_exact by (auto || lia).
  split; [reflexivity|split; [|reflexivity]]. f_equal.
  destruct n as [|n]; [reflexivity|].
  replace (Z.of_nat (S n) =? 0) with false by (symmetry; apply Z.eqb_neq; lia).
  cbn [andb Nat.eqb]. rewrite Bool.andb_false_r. f_equal; lia.
Qed.

Lemma parseInt_reads_back_decimal_numerals_witness :
  parseInt "1500" = Some (Finite 1500) /\ parseInt "-1500" = Some (Finite (-1500)).
Proof.
  destruct (parseInt_reads_back_decimal_numerals 1500) as [_ Hexact].
  destruct Hexact as (Hplain & Hminus & _); [vm_compute; discriminate|].
  split; [exact Hplain|exact Hminus].
Defined.

(** X8. [parseInt] skips white space in front of a number and ignores
    whatever follows its digits: a numeral between white space and text
    that starts with anything but a digit (as in " 50ms") is read as the
    number value of the number alone, which up to 2^53 is the number. *)
Theorem parseInt_ignores_text_around_the_number
    (ws : string) (n : nat) (c : ascii) (rest : string) :
  allWhiteSpace ws = true ->
  isDigit c = false ->
  parseInt (ws ++ NilEmpty.string_of_uint (Nat.to_uint n) ++ String c rest)%string
  = Some (toNumber (Z.of_nat n)) /\
  (Z.of_nat n <= 2 ^ 53 ->
   parseInt (ws ++ NilEmpty.string_of_uint (Nat.to_uint n) ++ String c rest)%string
   = Some (Finite (Z.of_nat n))).
Proof.
  intros Hws Hc.
  pose proof (parseInt_shape ws "" (Nat.to_uint n) (String c rest) Hws
                (or_introl eq_refl) (to_uint_not_Nil n) Hc) as Hshape.
  rewrite append_empty_l, Unsigned.of_to in Hshape. simpl String.eqb in Hshape.
  rewrite signedNumber_plus in Hshape.
  split; [exact Hshape|].
  intros Hsmall. rewrite Hshape, toNumber_exact by lia. reflexivity.
Qed.

Lemma parseInt_ignores_text_around_the_number_witness :
  parseInt " 50ms" = Some (Finite 50).
Proof.
  apply (parseInt_ignores_text_around_the_number " " 50 "m" "s");
    [reflexivity|reflexivity|vm_compute; discriminate].
Defined.

(** X9. [parseInt] gives [NaN], and the delay step is skipped, exactly
    when the value, leading white space and one sign taken off, is empty
    or starts with something that is no digit. *)
Theorem parseInt_is_NaN_exactly_without_a_leading_digit (v : string) :
  let unsigned :=
    match trimStart v with
    | String c r => if Ascii.eqb c "-" || Ascii.eqb c "+" then r else String c r
    | EmptyString => EmptyString
    end in
  parseInt v = None <->
  match unsigned with
  | EmptyString => True
  | String c _ => isDigit c = false
  end.
Proof. apply parseInt_NaN_iff. Qed.

Lemma parseInt_is_NaN_exactly_without_a_leading_digit_witness :
  parseInt "-x1" = None.
Proof.
  apply (parseInt_is_NaN_exactly_without_a_leading_digit "-x1"). reflexivity.
Defined.

Lemma trimStart_idempotent s : trimStart (trimStart s) = trimStart s.
Proof.
  induction s as [|c s IH]; simpl; [reflexivity|].
  destruct (isStrWhiteSpaceChar c) eqn:Hc; [exact IH|]. simpl. now rewrite Hc.
Qed.

Lemma trimEnd_idempotent s : trimEnd (trimEnd s) = trimEnd s.
Proof.
  induction s as [|c s IH]; simpl; [reflexivity|].
  destruct (trimEnd s) as [|c' r] eqn:Hend.
  - destruct (isStrWhiteSpaceChar c) eqn:Hc; simpl; [reflexivity|now rewrite Hc].
  - cbn [trimEnd] in *. now rewrite IH.
Qed.

Lemma trimEnd_trimStart s : trimEnd (trimStart s) = trimStart (trimEnd s).
Proof.
  induction s as [|c s IH]; [reflexivity|].
  cbn [trimStart]. destruct (isStrWhiteSpaceChar c) eqn:Hc.
  - rewrite IH. cbn [trimEnd].
    destruct (trimEnd s) as [|c' r]; rewrite ?Hc; cbn [trimStart]; now rewrite ?Hc.
  - cbn [trimEnd].
    destruct (trimEnd s) as [|c' r]; rewrite ?Hc; cbn [trimStart]; now rewrite Hc.
Qed.

Lemma trimEnd_split s :
  exists post, allWhiteSpace post = true /\ s = (trimEnd s ++ post)%string.
Proof.
  induction s as [|c s (post & Hpost & Hs)]; [exists ""; auto|].
  cbn [trimEnd]. destruct (trimEnd s) as [|c' r] eqn:Hend.
  - rewrite append_empty_l in Hs. destruct (isStrWhiteSpaceChar c) eqn:Hc.
    + exists (String c post). cbn [allWhiteSpace]. rewrite Hc, Hpost, append_empty_l.
      split; [reflexivity|congruence].
    + exists post. rewrite append_String, append_empty_l.
      split; [exact Hpost|congruence].
  - exists post. split; [exact Hpost|]. rewrite append_String. congruence.
Qed.

Lemma trim_idempotent s :
  trimStart (trim s) = trim s /\ trimEnd (trim s) = trim s /\ trim (trim s) = trim s.
Proof.
  assert (Hend : trimEnd (trim s) = trim s).
  { unfold trim. now rewrite trimEnd_trimStart, trimEnd_idempotent. }
  repeat split.
  - unfold trim. apply trimStart_idempotent.
  - exact Hend.
  - unfold trim at 1. rewrite Hend. unfold trim. apply trimStart_idempotent.
Qed.

(** X10. [trim] takes away white space at the two ends and nothing else:
    the text is its trimmed form between two runs of white space, and the
    trimmed form has no white space left to take away at either end. *)
Theorem trim_removes_only_surrounding_white_space (s : string) :
  (exists pre post,
     allWhiteSpace pre = true /\ allWhiteSpace post = true /\
     s = (pre ++ trim s ++ post)%string) /\
  trimStart (trim s) = trim s /\
  trimEnd (trim s) = trim s /\
  trim (trim s) = trim s.
Proof.
  split; [|apply trim_idempotent].
  destruct (trimEnd_split s) as (post & Hpost & Hs).
  destruct (trimStart_split (trimEnd s)) as (pre & Hpre & Hmid).
  exists pre, post. repeat split; [exact Hpre|exact Hpost|].
  unfold trim. rewrite <- append_assoc, <- Hmid. exact Hs.
Qed.

(** [onSendToPlugin] sends nothing, or the event is the string
    "browseFile" and the reply is the one built from the message. *)
Lemma onSendToPlugin_cases ev dialog :
  onSendToPlugin ev dialog = None \/
  (payload_event ev = JsString "browseFile" /\
   onSendToPlugin ev dialog
   = Some (sender ev,
           {| event := "filePicked"; filePath := browseFile dialog;
              index := payload_index ev; tree := payload_tree ev |})).
Proof.
  unfold onSendToPlugin.
  destruct (payload_event ev) as [|n|s]; [now left|now left|].
  do 10 (destruct s as [|[[] [] [] [] [] [] [] []] s]; try (left; reflexivity)).
  destruct s; [right; split; reflexivity|left; reflexivity].
Qed.

(** X11. Whatever the dialog command printed, the file path that
    [onSendToPlugin] sends has no white space or line end at either end,
    the reply goes to the control the message came from, and it carries
    the event "filePicked" with the message's [index] and [tree]. *)
Theorem filePicked_path_is_trimmed
    (ev : SendToPluginEvent) (dialog : ExecResult)
    (to : ControlId) (reply : InspectorReply) :
  onSendToPlugin ev dialog = Some (to, reply) ->
  trim (filePath reply) = filePath reply /\
  to = sender ev /\
  event reply = "filePicked" /\
  index reply = payload_index ev /\
  tree reply = payload_tree ev.
Proof.
  intros Hreply.
  destruct (onSendToPlugin_cases ev dialog) as [Hnone|[_ Hsome]]; [congruence|].
  rewrite Hsome in Hreply. injection Hreply as <- <-. simpl.
  repeat split. unfold browseFile. destruct (err dialog); [reflexivity|].
  apply trim_idempotent.
Qed.

Lemma filePicked_path_is_trimmed_witness :
  let reply := {| event := "filePicked"; filePath := "/tmp/a.sh";
                  index := JsNumber 0; tree := JsString "tree0" |} in
  trim (filePath reply) = filePath reply /\ event reply = "filePicked".
Proof.
  intros reply.
  destruct (filePicked_path_is_trimmed
              {| sender := "key"; payload_event := JsString "browseFile";
                 payload_index := JsNumber 0; payload_tree := JsString "tree0" |}
              {| err := None; stdout := "  /tmp/a.sh  " |} "key" reply eq_refl)
    as (Htrim & _ & Hevent & _).
  split; [exact Htrim|exact Hevent].
Defined.

(** X12. A message from the inspector whose event is anything but the
    string "browseFile" (another string, a number, or no event at all) is
    ignored: no dialog result is used and nothing is sent back. *)
Theorem other_inspector_messages_are_ignored
    (ev : SendToPluginEvent) (dialog : ExecResult) :
  payload_event ev <> JsString "browseFile" ->
  onSendToPlugin ev dialog = None.
Proof.
  intros Hother.
  destruct (onSendToPlugin_cases ev dialog) as [Hnone|[Hevent _]];
    [exact Hnone|contradiction].
Qed.

Lemma other_inspector_messages_are_ignored_witness :
  onSendToPlugin
    {| sender := "key"; payload_event := JsString "browsefile";
       payload_index := JsNumber 0; payload_tree := JsString "tree0" |}
    {| err := None; stdout := "/tmp/a.sh" |} = None.
Proof.
  apply other_inspector_messages_are_ignored. discriminate.
Defined.

(** * Further properties of the handler object *)

(** What one input starts and what it does to the timers. *)
Lemma step_accounts i rt rt1 cs :
  step i rt = Some (rt1, cs) ->
  length cs = ((if isKeyUp i then 1 else 0) + (if isTimerFires i then 1 else 0))%nat /\
  length (List.filter isExecuteHold cs) = (if isTimerFires i then 1 else 0)%nat /\
  (length (List.filter isExecuteHold cs) + size (timers rt1)
   <= size (timers rt) + (if isKeyDown i then 1 else 0))%nat /\
  nextTimeout rt1 = (nextTimeout rt + (if isKeyDown i then 1 else 0))%nat.
Proof.
  destruct i as [ev|ev|f]; simpl.
  - intros [= <- <-]. simpl. repeat split; try lia.
    rewrite map_size_insert. destruct (timers rt !! nextTimeout rt); simpl; lia.
  - unfold onKeyUp.
    destruct (pressTimer (this rt)) as [t|]; simpl;
      destruct (isLongPress (this rt)); intros [= <- <-]; simpl;
      repeat split; try lia;
      unfold clearTimeout; rewrite map_size_delete;
      destruct (timers rt !! t); simpl; lia.
  - unfold timerCallback. destruct (timers rt !! f) as [ev|] eqn:Hf; [|discriminate].
    intros [= <- <-]. simpl. repeat split; try lia.
    rewrite map_size_delete, Hf. simpl.
    destruct (size (timers rt)) as [|n] eqn:Hsize; [|lia].
    apply map_size_empty_iff in Hsize. rewrite Hsize, lookup_empty in Hf. discriminate.
Qed.

(** X13. In every schedule the handler accepts, each release starts
    exactly one call, each timer firing starts exactly one [executeHold],
    and a press-down starts none: no input is dropped and none is answered
    twice. *)
Theorem every_input_starts_its_one_call
    (inputs : list Input) (rt rt' : Runtime) (calls : list Call) :
  deliver inputs rt = Some (rt', calls) ->
  length calls
  = (length (List.filter isKeyUp inputs)
     + length (List.filter isTimerFires inputs))%nat /\
  length (List.filter isExecuteHold calls)
  = length (List.filter isTimerFires inputs).
Proof.
  revert rt rt' calls.
  induction inputs as [|i rest IH]; intros rt rt' calls Hrun.
  - injection Hrun as <- <-. auto.
  - simpl in Hrun.
    destruct (step i rt) as [[rt1 cs1]|] eqn:Hstep; [|discriminate].
    destruct (deliver rest rt1) as [[rt2 cs2]|] eqn:Hrest; [|discriminate].
    injection Hrun as <- <-.
    destruct (step_accounts _ _ _ _ Hstep) as (Hlen & Hhold & _).
    destruct (IH _ _ _ Hrest) as (IHlen & IHhold).
    rewrite List.filter_app, !length_app, Hlen, Hhold, IHlen, IHhold.
    destruct i; simpl; lia.
Qed.

Lemma every_input_starts_its_one_call_witness :
  exists rt' calls,
    deliver [KeyDown (sampleEvent 0); TimerFires 0%nat; KeyUp (sampleEvent 1)] startup
    = Some (rt', calls) /\ length calls = 2%nat.
Proof.
  eexists. eexists. split; [reflexivity|].
  apply (every_input_starts_its_one_call
           [KeyDown (sampleEvent 0); TimerFires 0%nat; KeyUp (sampleEvent 1)]
           startup _ _ eq_refl).
Defined.

(** X14. In every schedule, overlapping presses included, the
    [executeHold] calls started plus the timers still pending are at most
    the timers pending at the start plus the press-downs delivered: a
    timer runs its hold tree at most once, and only a press-down makes
    one. The handles given out are counted by [nextTimeout]. *)
Theorem hold_runs_at_most_once_per_press_down
    (inputs : list Input) (rt rt' : Runtime) (calls : list Call) :
  deliver inputs rt = Some (rt', calls) ->
  (length (List.filter isExecuteHold calls) + size (timers rt')
   <= size (timers rt) + length (List.filter isKeyDown inputs))%nat /\
  nextTimeout rt'
  = (nextTimeout rt + length (List.filter isKeyDown inputs))%nat.
Proof.
  revert rt rt' calls.
  induction inputs as [|i rest IH]; intros rt rt' calls Hrun.
  - injection Hrun as <- <-. simpl. lia.
  - simpl in Hrun.
    destruct (step i rt) as [[rt1 cs1]|] eqn:Hstep; [|discriminate].
    destruct (deliver rest rt1) as [[rt2 cs2]|] eqn:Hrest; [|discriminate].
    injection Hrun as <- <-.
    destruct (step_accounts _ _ _ _ Hstep) as (_ & _ & Hsize & Hnext).
    destruct (IH _ _ _ Hrest) as (IHsize & IHnext).
    rewrite List.filter_app, length_app, IHnext, Hnext.
    destruct i; simpl in *; lia.
Qed.

Lemma hold_runs_at_most_once_per_press_down_witness :
  exists rt' calls,
    deliver [KeyDown (sampleEvent 0); KeyDown (sampleEvent 0);
             TimerFires 1%nat; TimerFires 0%nat] startup = Some (rt', calls) /\
    (length (List.filter isExecuteHold calls) + size (timers rt') <= 0 + 2)%nat.
Proof.
  eexists. eexists. split; [reflexivity|].
  apply (hold_runs_at_most_once_per_press_down
           [KeyDown (sampleEvent 0); KeyDown (sampleEvent 0);
            TimerFires 1%nat; TimerFires 0%nat] startup _ _ eq_refl).
Defined.

(** Releases that follow one another are all answered by the flag as it
    stands: [onKeyUp] does not change [isLongPress] or [initialState]. *)
Lemma releases_in_a_row evs : forall rt,
  exists rt',
    deliver (map KeyUp evs) rt
    = Some (rt',
            map (fun ev =>
                   if isLongPress (this rt)
                   then AwaitSetState (action ev) (initialState (this rt))
                   else AwaitExecuteToggle ev) evs) /\
    isLongPress (this rt') = isLongPress (this rt) /\
    initialState (this rt') = initialState (this rt).
Proof.
  induction evs as [|ev evs IH]; intros rt; [exists rt; auto|].
  cbn [map deliver step].
  set (rt1 := fst (onKeyUp ev rt)).
  assert (Hflag : isLongPress (this rt1) = isLongPress (this rt) /\
                  initialState (this rt1) = initialState (this rt)).
  { unfold rt1, onKeyUp. destruct (pressTimer (this rt));
      destruct (isLongPress (this rt)) eqn:Hl; simpl; rewrite ?Hl; auto. }
  assert (Hup : onKeyUp ev rt
                = (rt1, [if isLongPress (this rt)
                         then AwaitSetState (action ev) (initialState (this rt))
                         else AwaitExecuteToggle ev])).
  { unfold rt1, onKeyUp. destruct (pressTimer (this rt));
      destruct (isLongPress (this rt)) eqn:Hl; simpl; rewrite ?Hl; reflexivity. }
  rewrite Hup. destruct (IH rt1) as (rt' & Hrun & Hl & Hs). rewrite Hrun.
  destruct Hflag as [Hl1 Hs1]. rewrite Hl1, Hs1 in *.
  exists rt'. rewrite Hl, Hs. auto.
Qed.

(** X15. The long-press flag is cleared by a press-down only. After a
    hold (press-down, its timer fires), every release that follows, however
    many and for whatever control, writes the state captured at that
    press-down and none runs [executeToggle]; on the handler as created,
    releases with no press-down before them each run [executeToggle]. *)
Theorem only_a_press_down_clears_the_long_press_flag
    (rt : Runtime) (evd : KeyEvent) (ups : list KeyEvent) :
  (exists rt',
     deliver (KeyDown evd :: TimerFires (nextTimeout rt) :: map KeyUp ups) rt
     = Some (rt',
             AwaitExecuteHold evd
             :: map (fun ev => AwaitSetState (action ev)
                                 (default 0 (payload_state evd))) ups)) /\
  (exists rt',
     deliver (map KeyUp ups) startup = Some (rt', map AwaitExecuteToggle ups)).
Proof.
  split.
  - cbn [deliver step]. unfold onKeyDown, timerCallback. cbn [timers fst snd].
    rewrite lookup_insert_eq.
    match goal with
    | |- context [deliver (map KeyUp ups) ?r] =>
        destruct (releases_in_a_row ups r) as (rt' & -> & _)
    end.
    exists rt'. reflexivity.
  - destruct (releases_in_a_row ups startup) as (rt' & -> & _).
    exists rt'. reflexivity.
Qed.

(** X16. Two controls pressed at once share the fields. With A pressed,
    then B pressed, then A's timer firing (A is held), the release of B
    runs no tree at all but writes B's captured state, and the release of
    A then writes to A the state captured for B. *)
Theorem a_hold_on_one_control_swallows_the_press_on_another
    (rt : Runtime) (downA downB upB upA : KeyEvent) :
  exists rt',
    deliver [KeyDown downA; KeyDown downB; TimerFires (nextTimeout rt);
             KeyUp upB; KeyUp upA] rt
    = Some (rt',
            [AwaitExecuteHold downA;
             AwaitSetState (action upB) (default 0 (payload_state downB));
             AwaitSetState (action upA) (default 0 (payload_state downB))]) /\
    timers rt' = delete (S (nextTimeout rt)) (delete (nextTimeout rt) (timers rt)).
Proof.
  cbn [deliver step]. unfold onKeyDown, timerCallback. cbn [timers nextTimeout fst snd].
  rewrite lookup_insert_ne by lia. rewrite lookup_insert_eq.
  eexists. split; [reflexivity|].
  cbn. unfold clearTimeout.
  apply map_eq. intros k.
  destruct (decide (k = S (nextTimeout rt))) as [->|HkB];
    [now rewrite !lookup_delete_eq|].
  rewrite !(lookup_delete_ne _ (S (nextTimeout rt))) by congruence.
  destruct (decide (k = nextTimeout rt)) as [->|HkA];
    [now rewrite !lookup_delete_eq|].
  rewrite !(lookup_delete_ne _ (nextTimeout rt)) by congruence.
  now rewrite !lookup_insert_ne by congruence.
Qed.

(** X17. A press-down that arrives while a timer is pending leaves that
    timer without a handle: the release clears only the later timer, runs
    [executeToggle], and the earlier timer can still fire afterwards,
    running the hold tree of the first press after the key is up and
    leaving the long-press flag set. *)
Theorem orphaned_timer_fires_after_the_release
    (rt : Runtime) (first second up : KeyEvent) :
  exists rt',
    deliver [KeyDown first; KeyDown second; KeyUp up;
             TimerFires (nextTimeout rt)] rt
    = Some (rt', [AwaitExecuteToggle up; AwaitExecuteHold first]) /\
    isLongPress (this rt') = true /\
    pressTimer (this rt') = None.
Proof.
  cbn [deliver step]. unfold onKeyDown, onKeyUp, timerCallback, clearTimeout.
  cbn [this timers nextTimeout pressTimer isLongPress initialState fst snd].
  rewrite lookup_delete_ne by lia.
  rewrite lookup_insert_ne by lia. rewrite lookup_insert_eq.
  eexists. repeat split; reflexivity.
Qed.

(** * Properties of the commands handed to [exec] *)

Lemma replaceFirst_absent c s : includes c s = false -> replaceFirst c "" s = s.
Proof.
  induction s as [|d s IH]; simpl; [reflexivity|].
  destruct (Ascii.eqb d c); simpl; [discriminate|].
  intros H. now rewrite IH.
Qed.

Lemma includes_replaceFirst_other c d s :
  c <> d -> includes c (replaceFirst d "" s) = includes c s.
Proof.
  intros Hcd. induction s as [|x s IH]; simpl; [reflexivity|].
  destruct (Ascii.eqb_spec x d) as [->|Hxd].
  - rewrite append_empty_l.
    destruct (Ascii.eqb_spec d c) as [->|_]; [congruence|reflexivity].
  - simpl. now rewrite IH.
Qed.

Lemma occurrences_replaceFirst d c s :
  occurrences d (replaceFirst c "" s)
  = if Ascii.eqb d c then Nat.pred (occurrences d s) else occurrences d s.
Proof.
  induction s as [|x s IH]; simpl; [now destruct (Ascii.eqb d c)|].
  destruct (Ascii.eqb_spec x c) as [->|Hxc].
  - rewrite append_empty_l. rewrite (Ascii.eqb_sym c d).
    destruct (Ascii.eqb d c); reflexivity.
  - simpl. rewrite IH.
    destruct (Ascii.eqb_spec d c) as [->|Hdc]; [|reflexivity].
    destruct (Ascii.eqb_spec x c) as [->|_]; [congruence|reflexivity].
Qed.

(** The key left by the three [if]s: each marker taken out once, in the
    order the code tests them. *)
Lemma macModifiers_key keys :
  snd (macModifiers keys)
  = replaceFirst "%" "" (replaceFirst "+" "" (replaceFirst "^" "" keys)).
Proof.
  unfold macModifiers.
  destruct (includes "^" keys) eqn:H1.
  - destruct (includes "+" (replaceFirst "^" "" keys)) eqn:H2.
    + destruct (includes "%" (replaceFirst "+" "" (replaceFirst "^" "" keys))) eqn:H3;
        simpl; [reflexivity|now rewrite (replaceFirst_absent _ _ H3)].
    + rewrite (replaceFirst_absent _ _ H2).
      destruct (includes "%" (replaceFirst "^" "" keys)) eqn:H3;
        simpl; [reflexivity|now rewrite (replaceFirst_absent _ _ H3)].
  - rewrite (replaceFirst_absent _ _ H1).
    destruct (includes "+" keys) eqn:H2.
    + destruct (includes "%" (replaceFirst "+" "" keys)) eqn:H3;
        simpl; [reflexivity|now rewrite (replaceFirst_absent _ _ H3)].
    + rewrite (replaceFirst_absent _ _ H2).
      destruct (includes "%" keys) eqn:H3;
        simpl; [reflexivity|now rewrite (replaceFirst_absent _ _ H3)].
Qed.

(** X18. On macOS the modifiers of a hotkey depend only on which markers
    occur in the keys, not on where or how often: control for a caret,
    shift for a plus, command for a percent sign, always in that order. *)
Theorem macModifiers_follow_the_markers_present (keys : string) :
  fst (macModifiers keys)
  = (if includes "^" keys then ["control down"] else [])
    ++ (if includes "+" keys then ["shift down"] else [])
    ++ (if includes "%" keys then ["command down"] else []).
Proof.
  unfold macModifiers.
  destruct (includes "^" keys) eqn:H1.
  - rewrite (includes_replaceFirst_other "+" "^") by discriminate.
    destruct (includes "+" keys) eqn:H2.
    + rewrite !includes_replaceFirst_other by discriminate.
      destruct (includes "%" keys); reflexivity.
    + rewrite !includes_replaceFirst_other by discriminate.
      destruct (includes "%" keys); reflexivity.
  - destruct (includes "+" keys) eqn:H2.
    + rewrite !includes_replaceFirst_other by discriminate.
      destruct (includes "%" keys); reflexivity.
    + destruct (includes "%" keys); reflexivity.
Qed.

(** X19. On macOS only the first occurrence of each marker is taken out
    of the keys: the key text that is left holds one caret, one plus and
    one percent sign less than the keys (none less when there was none),
    and every other code unit as often as before. *)
Theorem macModifiers_take_out_first_markers_only (keys : string) (c : ascii) :
  occurrences c (snd (macModifiers keys))
  = if Ascii.eqb c "^" || Ascii.eqb c "+" || Ascii.eqb c "%"
    then Nat.pred (occurrences c keys)
    else occurrences c keys.
Proof.
  rewrite macModifiers_key, !occurrences_replaceFirst.
  destruct (Ascii.eqb_spec c "%") as [->|_]; [reflexivity|].
  destruct (Ascii.eqb_spec c "+") as [->|_]; [reflexivity|].
  destruct (Ascii.eqb c "^"); reflexivity.
Qed.

Lemma anyUnit_replaceGlobal_removed p s :
  anyUnit p (replaceGlobal p "" s) = false.
Proof.
  induction s as [|c s IH]; simpl; [reflexivity|].
  destruct (p c) eqn:Hc; [now rewrite append_empty_l|].
  simpl. now rewrite Hc, IH.
Qed.

Lemma toLowerCaseUnit_brace c : isBrace (toLowerCaseUnit c) = isBrace c.
Proof. destruct c as [[] [] [] [] [] [] [] []]; reflexivity. Qed.

Lemma toLowerCaseUnit_not_capital c :
  ((65 <=? nat_of_ascii (toLowerCaseUnit c))
   && (nat_of_ascii (toLowerCaseUnit c) <=? 90))%nat = false.
Proof. destruct c as [[] [] [] [] [] [] [] []]; reflexivity. Qed.

(** X20. On macOS the text given to [keystroke] for a hotkey never holds
    a brace and never a capital letter A to Z, whatever the keys are: a
    special key written in braces, as F5 in braces, is sent as its letters. *)
Theorem macKeystroke_has_no_brace_and_no_capital (keys : string) :
  anyUnit isBrace (macKeystroke keys) = false /\
  anyUnit (fun c => ((65 <=? nat_of_ascii c) && (nat_of_ascii c <=? 90))%nat)
    (macKeystroke keys) = false.
Proof.
  unfold macKeystroke. generalize (snd (macModifiers keys)) as key. intros key.
  split.
  - pose proof (anyUnit_replaceGlobal_removed isBrace key) as Hgone.
    induction (replaceGlobal isBrace "" key) as [|c s IH]; [reflexivity|].
    simpl in *. rewrite toLowerCaseUnit_brace.
    apply orb_false_elim in Hgone as [-> Hs]. now apply IH.
  - induction (replaceGlobal isBrace "" key) as [|c s IH]; [reflexivity|].
    cbn [toLowerCase anyUnit]. now rewrite toLowerCaseUnit_not_capital, IH.
Qed.

Lemma append_inv_head p a b : (p ++ a)%string = (p ++ b)%string -> a = b.
Proof.
  induction p as [|c p IH]; [now rewrite !append_empty_l|].
  rewrite !append_String. intros [= H]. now apply IH.
Qed.

Lemma list_ascii_of_append a b :
  list_ascii_of_string (a ++ b)%string
  = list_ascii_of_string a ++ list_ascii_of_string b.
Proof.
  induction a as [|c a IH]; [reflexivity|].
  rewrite append_String. simpl. now rewrite IH.
Qed.

Lemma append_inv_tail q a b : (a ++ q)%string = (b ++ q)%string -> a = b.
Proof.
  intros H. apply (f_equal list_ascii_of_string) in H.
  rewrite !list_ascii_of_append in H. apply List.app_inv_tail in H.
  rewrite <- (string_of_list_ascii_of_string a), <- (string_of_list_ascii_of_string b).
  now rewrite H.
Qed.

(** The text inside a command is determined by the command. *)
Lemma powershell_sendWait_inj a b :
  powershell (sendWait a) = powershell (sendWait b) -> a = b.
Proof.
  unfold powershell, sendWait. intros H.
  apply append_inv_head, append_inv_head in H.
  apply append_inv_tail in H. apply append_inv_head in H.
  now apply append_inv_tail in H.
Qed.

Lemma osascript_keystroke_inj a b :
  osascript (keystroke a) = osascript (keystroke b) -> a = b.
Proof.
  unfold osascript, keystroke. intros H.
  apply append_inv_head in H. apply append_inv_tail in H.
  do 6 apply append_inv_head in H.
  now apply append_inv_tail in H.
Qed.

Lemma doubled_quotes_inj s : forall t,
  replaceGlobal isSingleQuote "''" s = replaceGlobal isSingleQuote "''" t -> s = t.
Proof.
  induction s as [|c s IH]; intros [|d t]; cbn [replaceGlobal];
    try reflexivity.
  - destruct (isSingleQuote d); rewrite ?append_String; discriminate.
  - destruct (isSingleQuote c); rewrite ?append_String; discriminate.
  - unfold isSingleQuote.
    destruct (Ascii.eqb_spec c "'") as [->|Hc], (Ascii.eqb_spec d "'") as [->|Hd];
      rewrite ?append_String, ?append_empty_l.
    + intros [= H]. f_equal. now apply IH.
    + intros [= H _]. congruence.
    + intros [= H _]. congruence.
    + intros [= -> H]. f_equal. now apply IH.
Qed.

Lemma escaped_never_starts_with_quote s :
  match replaceGlobal isDoubleQuote (backslash ++ dquote) s with
  | EmptyString => s = EmptyString
  | String c _ => isDoubleQuote c = false
  end.
Proof.
  destruct s as [|c s]; [reflexivity|]. cbn [replaceGlobal].
  destruct (isDoubleQuote c) eqn:Hc; [reflexivity|exact Hc].
Qed.

Lemma backslash_dquote_prefix s :
  ((backslash ++ dquote) ++ s)%string = String "092" (String "034" s).
Proof. reflexivity. Qed.

Lemma backslashed_quotes_inj s : forall t,
  replaceGlobal isDoubleQuote (backslash ++ dquote) s
  = replaceGlobal isDoubleQuote (backslash ++ dquote) t -> s = t.
Proof.
  induction s as [|c s IH]; intros [|d t] H; [reflexivity| | |].
  - pose proof (escaped_never_starts_with_quote (String d t)) as Ht.
    rewrite <- H in Ht. exact (eq_sym Ht).
  - pose proof (escaped_never_starts_with_quote (String c s)) as Hs.
    rewrite H in Hs. exact Hs.
  - pose proof (escaped_never_starts_with_quote s) as Hs.
    pose proof (escaped_never_starts_with_quote t) as Ht.
    cbn [replaceGlobal] in H.
    destruct (isDoubleQuote c) eqn:Hc, (isDoubleQuote d) eqn:Hd;
      rewrite ?backslash_dquote_prefix in H.
    + injection H as H. apply IH in H. unfold isDoubleQuote in Hc, Hd.
      apply Ascii.eqb_eq in Hc, Hd. congruence.
    + injection H as _ H. rewrite <- H in Ht. discriminate Ht.
    + injection H as _ H. rewrite H in Hs. discriminate Hs.
    + injection H as -> H. f_equal. now apply IH.
Qed.

Lemma two_quotes_prefix s : ("''" ++ s)%string = String "'" (String "'" s).
Proof. reflexivity. Qed.

Lemma occurrences_doubled_quotes s :
  occurrences "'" (replaceGlobal isSingleQuote "''" s) = (2 * occurrences "'" s)%nat /\
  String.length (replaceGlobal isSingleQuote "''" s)
  = (String.length s + occurrences "'" s)%nat.
Proof.
  induction s as [|c s [IHocc IHlen]]; [auto|].
  cbn [replaceGlobal occurrences String.length].
  destruct (isSingleQuote c) eqn:Hc; unfold isSingleQuote in Hc; rewrite Hc.
  - rewrite two_quotes_prefix. cbn [occurrences String.length].
    change (Ascii.eqb "'" "'") with true. rewrite IHocc, IHlen. lia.
  - cbn [occurrences String.length]. rewrite Hc, IHocc, IHlen. lia.
Qed.

Lemma length_of_append a b :
  String.length (a ++ b)%string = (String.length a + String.length b)%nat.
Proof.
  induction a as [|c a IH]; [reflexivity|].
  rewrite append_String. simpl. now rewrite IH.
Qed.

(** X21. [simulateTyping] never builds the same command for two different
    texts, on either platform; on Windows every single quote of the text
    is in the command twice, so the escaped text is longer by one code
    unit per quote. *)
Theorem simulateTyping_commands_tell_texts_apart
    (isWin : bool) (text1 text2 : string) :
  (simulateTypingCommand isWin text1 = simulateTypingCommand isWin text2 ->
   text1 = text2) /\
  occurrences "'" (replaceGlobal isSingleQuote "''" text1)
  = (2 * occurrences "'" text1)%nat /\
  String.length (simulateTypingCommand true text1)
  = (String.length (simulateTypingCommand true "") + String.length text1
     + occurrences "'" text1)%nat.
Proof.
  split; [|split].
  - destruct isWin; unfold simulateTypingCommand.
    + intros H%powershell_sendWait_inj. now apply doubled_quotes_inj.
    + intros H%osascript_keystroke_inj. now apply backslashed_quotes_inj.
  - apply occurrences_doubled_quotes.
  - unfold simulateTypingCommand, powershell, sendWait.
    rewrite !length_of_append.
    rewrite (proj2 (occurrences_doubled_quotes text1)). simpl. lia.
Qed.

Lemma simulateTyping_commands_tell_texts_apart_witness :
  simulateTypingCommand true "it's" <> simulateTypingCommand true "its".
Proof.
  intros H.
  apply (simulateTyping_commands_tell_texts_apart true "it's" "its") in H.
  discriminate H.
Defined.

Lemma replaceGlobal_absent p by_ s :
  anyUnit p s = false -> replaceGlobal p by_ s = s.
Proof.
  induction s as [|c s IH]; simpl; [reflexivity|].
  destruct (p c); simpl; [discriminate|]. intros H. now rewrite IH.
Qed.

Lemma anyUnit_isSingleQuote s :
  anyUnit isSingleQuote s = false <-> occurrences "'" s = 0%nat.
Proof.
  induction s as [|c s IH]; simpl; [tauto|]. unfold isSingleQuote at 1.
  destruct (Ascii.eqb c "'"); simpl; [split; (discriminate || lia)|exact IH].
Qed.

(** X22. On Windows a text command and a hotkey command with the same
    value give [exec] the same command exactly when the value holds no
    single quote: the text is sent through [SendKeys] like a hotkey, so
    its carets, plus and percent signs and braces act as hotkey markers. *)
Theorem windows_text_is_sent_like_a_hotkey (v : string) :
  simulateTypingCommand true v = simulateHotkeyCommand true v
  <-> anyUnit isSingleQuote v = false.
Proof.
  unfold simulateTypingCommand, simulateHotkeyCommand. split.
  - intros H%powershell_sendWait_inj.
    apply anyUnit_isSingleQuote.
    pose proof (proj2 (occurrences_doubled_quotes v)) as Hlen.
    rewrite H in Hlen. lia.
  - intros H. now rewrite replaceGlobal_absent.
Qed.

Lemma windows_text_is_sent_like_a_hotkey_witness :
  simulateTypingCommand true "^c" = simulateHotkeyCommand true "^c".
Proof.
  apply (windows_text_is_sent_like_a_hotkey "^c"). reflexivity.
Defined.
